(** * network-topologer: a shallow embedding of the traceroute engine and
    of the topology aggregator, with the properties of its specification.

    Modelling choices, module by module:
    - Python exceptions are the constructors of [exn]; a computation that
      may raise returns [pyres A], an error monad with stdpp's [x ← c; k].
    - A Python [bytes] object is a [list Byte.byte]; [data[i]] raises
      [IndexError] out of range, slicing never raises.
    - Floats (times in seconds, round-trip times in milliseconds) are
      canonical rationals [Qc]: the development does not model rounding.
    - A Python [dict] whose insertion order matters is an association
      list updated by [dict_set]; the adjacency and latency dictionaries,
      whose key order nobody observes, are stdpp [gmap]s, Python sets are
      [gset]s.
    - The network and the host are an explicit environment: the outcome
      of name resolution, of raw-socket and UDP-socket creation, and per
      probe either a send failure or the packets that reach the raw socket
      while waiting. The clock is idealised: a packet is stamped when it
      becomes readable and time never steps back, so nothing is proved
      about the size of a round-trip time. *)

From Stdlib Require Import QArith Qcanon.
From Stdlib Require Strings.Byte.
From stdpp Require Import base list gmap sets strings numbers sorting pretty.

Open Scope Z_scope.

(** ** Python exceptions and the error monad *)

Inductive exn :=
  | IndexError
  | StructError
  | DNSResolveError
  | TraceroutePermissionError
  | TracerouteError
  | ValueError
  | UnicodeError
  | OSError
  | OverflowError.

(** [isinstance(e, TracerouteError)]: exceptions.py declares
    [DNSResolveError] and [TraceroutePermissionError] as subclasses. *)
Definition is_traceroute_error (e : exn) : bool :=
  match e with
  | DNSResolveError | TraceroutePermissionError | TracerouteError => true
  | IndexError | StructError | ValueError | UnicodeError | OSError
  | OverflowError => false
  end.

Inductive pyres (A : Type) :=
  | PyOk (a : A)
  | PyRaise (e : exn).
Arguments PyOk {A} a.
Arguments PyRaise {A} e.

Global Instance pyres_ret : MRet pyres := λ A a, PyOk a.
Global Instance pyres_bind : MBind pyres := λ A B f c,
  match c with
  | PyOk a => f a
  | PyRaise e => PyRaise e
  end.

(** ** Bytes *)

Definition byte_val (b : Byte.byte) : Z := Z.of_N (Byte.to_N b).

(** [data[i]] *)
Definition py_index (data : list Byte.byte) (i : nat) : pyres Z :=
  match data !! i with
  | Some b => PyOk (byte_val b)
  | None => PyRaise IndexError
  end.

(** [data[i:j]] for [0 <= i <= j]: never raises, truncated at the end. *)
Definition py_slice (data : list Byte.byte) (i j : nat) : list Byte.byte :=
  take (j - i) (drop i data).

(** [struct.unpack("!BBH", h)]: raises [struct.error] unless [len(h) = 4]. *)
Definition unpack_BBH (h : list Byte.byte) : pyres (Z * Z * Z) :=
  match h with
  | [b0; b1; b2; b3] =>
      PyOk (byte_val b0, byte_val b1, byte_val b2 * 256 + byte_val b3)
  | _ => PyRaise StructError
  end.

(** ** Traceroute._parse_icmp_type (traceroute.py, lines 61-72) *)

Definition parse_icmp_type (data : list Byte.byte) : pyres (option Z) :=
  if bool_decide (length data < 20)%nat then mret None else
  ver_ihl ← py_index data 0;
  let ihl := Z.land ver_ihl 15 * 4 in
  if bool_decide (Z.of_nat (length data) < ihl + 4) then mret None else
  '(icmp_type, _, _) ← unpack_BBH (py_slice data (Z.to_nat ihl) (Z.to_nat (ihl + 4)));
  mret (Some icmp_type).

(** The header length the parser reads from the first byte
    ([(data[0] & 0x0F) * 4]; 0 for an empty packet, which is short anyway). *)
Definition ihl_of (data : list Byte.byte) : Z :=
  match data with
  | b :: _ => Z.land (byte_val b) 15 * 4
  | [] => 0
  end.

(** The packets [_parse_icmp_type] rejects. *)
Definition short_packet (data : list Byte.byte) : Prop :=
  (length data < 20)%nat ∨ Z.of_nat (length data) < ihl_of data + 4.

(** ** Traceroute._receive_reply (traceroute.py, lines 88-120)

    Time is measured from [start]. What reaches the raw socket during one
    wait is a list of arrivals in the order [recvfrom] returns them; a
    packet carries the time it becomes readable (a packet left over from an
    earlier probe is readable at once), its sender and its bytes.
    [RecvFailure] is a [recvfrom] that raises [socket.error]. *)

Inductive arrival :=
  | Packet (t : Qc) (src : string) (data : list Byte.byte)
  | RecvFailure.

(** [(addr, icmp_type, rtt_ms)] *)
Definition reply : Type := (option string * option Z * option Qc)%type.

Definition no_reply : reply := (None, None, None).

(** [icmp_type in (11, 3)] *)
Definition accepted_type (icmp_type : option Z) : bool :=
  bool_decide (icmp_type = Some 11 ∨ icmp_type = Some 3).

(** The clock when a packet readable at [t] is returned while the loop
    is at [now]. *)
Definition clock_after (now t : Qc) : Qc :=
  if bool_decide (t ≤ now)%Qc then now else t.

Definition ms_per_s : Qc := Q2Qc (inject_Z 1000).

(** The [while True] loop; [st] holds the variables [addr], [icmp_type],
    [rtt_ms] as last assigned. *)
Fixpoint receive_loop (timeout now : Qc) (st : reply) (pkts : list arrival)
    : pyres reply :=
  (* time_left = timeout - (time.time() - start); if time_left <= 0: break *)
  if bool_decide (timeout - now ≤ 0)%Qc then PyOk st else
  match pkts with
  | [] => PyOk st                      (* select returns nothing: break *)
  | RecvFailure :: _ => PyOk st        (* except socket.error: break *)
  | Packet t src data :: rest =>
      let recv_time := clock_after now t in
      if bool_decide (timeout ≤ recv_time)%Qc then PyOk st
      else
        icmp_type ← parse_icmp_type (take 1024 data);
        let st' : reply := (Some src, icmp_type, Some (recv_time * ms_per_s)%Qc) in
        if accepted_type icmp_type then PyOk st'
        else receive_loop timeout recv_time st' rest
  end.

Definition receive_reply (timeout : Qc) (pkts : list arrival) : pyres reply :=
  receive_loop timeout 0%Qc no_reply pkts.

(** ** Traceroute.run (traceroute.py, lines 122-160)

    A hop is the tuple [(ttl, ip_or_None, rtt_ms)]. *)

Definition hop : Type := (nat * option string * option Qc)%type.

Definition hop_ttl (h : hop) : nat := h.1.1.
Definition hop_ip (h : hop) : option string := h.1.2.
Definition hop_rtt (h : hop) : option Qc := h.2.

(** What happens to the probe sent at one ttl (to port [self.port + ttl]):
    [sendto] raises [OSError], or it is sent and the listed packets
    reach the raw socket while [_receive_reply] waits. *)
Inductive probe_event :=
  | SendFails
  | Sent (pkts : list arrival).

(** What [socket.gethostbyname(destination)] does: it returns an address,
    raises [socket.gaierror] (caught by [_resolve]), or raises another
    exception that [_resolve] lets through, such as the [UnicodeError] of
    the idna codec for a malformed name like ["a..b"]. *)
Inductive resolve_outcome :=
  | Resolved (ip : string)
  | ResolveGaierror
  | ResolveRaises (e : exn).

(** What creating a socket does: it succeeds, raises [PermissionError],
    or raises another [OSError]. *)
Inductive socket_outcome :=
  | SocketOk
  | SocketPermissionError
  | SocketOSError.

(** The network and the host as seen by one [Traceroute.run]. *)
Record trace_env := {
  env_resolve : resolve_outcome;
  env_raw_socket : socket_outcome;   (* socket(AF_INET, SOCK_RAW, IPPROTO_ICMP) *)
  env_udp_socket_ok : bool;          (* false: socket(SOCK_DGRAM) or bind raises OSError *)
  env_probes : list probe_event      (* the probes at ttl 1, 2, 3, ... *)
}.

(** [_resolve] (lines 31-37). *)
Definition resolve (env : trace_env) : pyres string :=
  match env_resolve env with
  | Resolved ip => PyOk ip
  | ResolveGaierror => PyRaise DNSResolveError
  | ResolveRaises e => PyRaise e
  end.

(** [_create_sockets] (lines 39-59). Only a [PermissionError] of the raw
    socket is translated; [settimeout] raises [ValueError] for a negative
    timeout; the UDP socket and its [bind] are outside the [try]. *)
Definition create_sockets (timeout : Qc) (env : trace_env) : pyres unit :=
  match env_raw_socket env with
  | SocketPermissionError => PyRaise TraceroutePermissionError
  | SocketOSError => PyRaise OSError
  | SocketOk =>
      if bool_decide (timeout < 0)%Qc then PyRaise ValueError
      else if env_udp_socket_ok env then PyOk tt else PyRaise OSError
  end.

(** The [while True] loop from [ttl] on; [port] is [base_port]. Each turn
    first runs [_send_probe] (lines 74-86): [setsockopt(SOL_IP, IP_TTL, ttl)]
    raises [OSError] for a ttl above 255 (Linux accepts 1..255), and
    [sendto] raises [OverflowError] when [dest_port] is outside 0..65535;
    neither is caught. [None]: the loop is still probing when the modelled
    probes run out. *)
Fixpoint probe_loop (timeout : Qc) (port : Z) (dest_ip : string) (ttl : nat)
    (hops : list hop) (probes : list probe_event) : option (pyres (list hop)) :=
  if bool_decide (255 < ttl)%nat then Some (PyRaise OSError) else
  let dest_port := port + Z.of_nat ttl in
  if bool_decide (dest_port < 0 ∨ 65535 < dest_port) then Some (PyRaise OverflowError) else
  match probes with
  | [] => None
  | SendFails :: _ => Some (PyRaise TracerouteError)
  | Sent pkts :: rest =>
      match receive_reply timeout pkts with
      | PyRaise e => Some (PyRaise e)
      | PyOk (addr, icmp_type, rtt_ms) =>
          match addr with
          | None => probe_loop timeout port dest_ip (S ttl) (hops ++ [(ttl, None, None)]) rest
          | Some a =>
              let hops' := hops ++ [(ttl, Some a, rtt_ms)] in
              if bool_decide (a = dest_ip) || bool_decide (icmp_type = Some 3)
              then Some (PyOk hops')
              else probe_loop timeout port dest_ip (S ttl) hops' rest
          end
      end
  end.

(** [Traceroute(timeout, port).run]: [_resolve], [_create_sockets], then
    the loop from [ttl = 1]; closing the sockets in [finally] swallows its
    own errors and changes nothing. *)
Definition traceroute_run (timeout : Qc) (port : Z) (env : trace_env)
    : option (pyres (list hop)) :=
  match resolve env with
  | PyRaise e => Some (PyRaise e)
  | PyOk dest_ip =>
      match create_sockets timeout env with
      | PyRaise e => Some (PyRaise e)
      | PyOk _ => probe_loop timeout port dest_ip 1 [] (env_probes env)
      end
  end.

(** ** NetworkTopologer (network_topologer.py) *)

(** A Python [dict] from destination to hops, in insertion order. *)
Definition results_dict : Type := list (string * list hop).

(** [d[k] = v]: an existing key keeps its place, a new key goes last. *)
Fixpoint dict_set {V} (k : string) (v : V) (d : list (string * V)) : list (string * V) :=
  match d with
  | [] => [(k, v)]
  | (k', v') :: d' =>
      if bool_decide (k = k') then (k, v) :: d' else (k', v') :: dict_set k v d'
  end.

(** [d.get(k)] *)
Fixpoint dict_get {V} (k : string) (d : list (string * V)) : option V :=
  match d with
  | [] => None
  | (k', v') :: d' => if bool_decide (k = k') then Some v' else dict_get k d'
  end.

Definition dict_keys {V} (d : list (string * V)) : list string := map fst d.

Record topologer := {
  nt_timeout : Qc;
  nt_port : Z;
  nt_results : results_dict
}.

Definition new_topologer (timeout : Qc) (port : Z) : topologer :=
  {| nt_timeout := timeout; nt_port := port; nt_results := [] |}.

Definition set_results (nt : topologer) (r : results_dict) : topologer :=
  {| nt_timeout := nt_timeout nt; nt_port := nt_port nt; nt_results := r |}.

(** The batch is the list [destinations], each destination with the
    network its own [Traceroute] sees. *)
Definition batch : Type := list (string * trace_env).

(** The [for dest in destinations] loop of [run]: [self.results] is
    updated in place; [Some e] in the second component is an exception
    that escapes the loop. [None]: some trace never terminates. *)
Fixpoint run_loop (timeout : Qc) (port : Z) (results : results_dict) (b : batch)
    : option (results_dict * option exn) :=
  match b with
  | [] => Some (results, None)
  | (dest, env) :: rest =>
      match traceroute_run timeout port env with
      | None => None
      | Some (PyOk hops) => run_loop timeout port (dict_set dest hops results) rest
      | Some (PyRaise e) =>
          if is_traceroute_error e then run_loop timeout port (dict_set dest [] results) rest
          else Some (results, Some e)
      end
  end.

(** [NetworkTopologer.run] (lines 33-52): the instance after the call, and
    the returned [self.results] or the exception raised. *)
Definition nt_run (nt : topologer) (b : batch) : option (topologer * pyres results_dict) :=
  match run_loop (nt_timeout nt) (nt_port nt) (nt_results nt) b with
  | None => None
  | Some (r, None) => Some (set_results nt r, PyOk r)
  | Some (r, Some e) => Some (set_results nt r, PyRaise e)
  end.

(** [_worker] of [run_parallel]: each task has its own [Traceroute]. *)
Definition worker (timeout : Qc) (port : Z) (de : string * trace_env)
    : option (pyres (string * list hop)) :=
  let '(dest, env) := de in
  match traceroute_run timeout port env with
  | None => None
  | Some (PyOk hops) => Some (PyOk (dest, hops))
  | Some (PyRaise e) =>
      Some (if is_traceroute_error e then PyOk (dest, []) else PyRaise e)
  end.

(** [workers or (min(len(destinations), 32) if destinations else 1)] *)
Definition max_workers (n_dest : nat) (workers : option Z) : Z :=
  let dflt := if bool_decide (n_dest = 0%nat) then 1 else Z.min (Z.of_nat n_dest) 32 in
  match workers with
  | Some w => if bool_decide (w = 0) then dflt else w
  | None => dflt
  end.

(** The [as_completed] loop: [fut.result()] re-raises a worker's error. *)
Fixpoint collect (results : results_dict) (done : list (pyres (string * list hop)))
    : results_dict * option exn :=
  match done with
  | [] => (results, None)
  | PyOk (dest, hops) :: rest => collect (dict_set dest hops results) rest
  | PyRaise e :: _ => (results, Some e)
  end.

(** [NetworkTopologer.run_parallel] (lines 54-80). [completion] lists the
    indices of the futures in the order they complete (a permutation of
    the batch's indices: the scheduler chooses it). The [with] block waits
    for every worker, so one trace that never ends blocks the call;
    [ThreadPoolExecutor] raises [ValueError] when [max_workers <= 0]. *)
Definition nt_run_parallel (nt : topologer) (b : batch) (workers : option Z)
    (completion : list nat) : option (topologer * pyres results_dict) :=
  let nt0 := set_results nt [] in
  if bool_decide (max_workers (length b) workers ≤ 0) then Some (nt0, PyRaise ValueError)
  else
    match mapM (worker (nt_timeout nt) (nt_port nt)) b with
    | None => None
    | Some outs =>
        match collect [] (omap (λ i, outs !! i) completion) with
        | (r, None) => Some (set_results nt r, PyOk r)
        | (r, Some e) => Some (set_results nt r, PyRaise e)
        end
    end.

(** *** build_adjacency (lines 82-106) *)

(** [[ip for _, ip, _ in hops if ip is not None]] *)
Definition present_ips (hops : list hop) : list string := omap hop_ip hops.

(** [adjacency.setdefault(a, set()).add(b)] *)
Definition setdefault_add (a b : string) (adj : gmap string (gset string))
    : gmap string (gset string) :=
  <[a := default ∅ (adj !! a) ∪ {[b]}]> adj.

(** [for i in range(len(ips) - 1): ...] *)
Fixpoint add_path_edges (ips : list string) (adj : gmap string (gset string))
    : gmap string (gset string) :=
  match ips with
  | a :: ((b :: _) as rest) => add_path_edges rest (setdefault_add a b adj)
  | _ => adj
  end.

Definition build_adjacency (results : results_dict) : gmap string (gset string) :=
  foldl (λ adj '(_, hops), add_path_edges (present_ips hops) adj) ∅ results.

(** The method, with its [results=None] default. *)
Definition nt_build_adjacency (nt : topologer) (results : option results_dict)
    : gmap string (gset string) :=
  build_adjacency (default (nt_results nt) results).

(** *** build_adjacency_with_latency (lines 108-140) *)

(** [[(ip, rtt) for _, ip, rtt in hops if ip is not None and rtt is not None]] *)
Definition ip_rtt_pairs (hops : list hop) : list (string * Qc) :=
  omap (λ h, match hop_ip h, hop_rtt h with
             | Some ip, Some rtt => Some (ip, rtt)
             | _, _ => None
             end) hops.

(** Python truthiness of a float. *)
Definition truthy (x : Qc) : bool := bool_decide (x ≠ 0%Qc).

(** [dst_rtt - src_rtt if (dst_rtt and src_rtt) else dst_rtt] *)
Definition delta_ms (src_rtt dst_rtt : Qc) : Qc :=
  if truthy dst_rtt && truthy src_rtt then (dst_rtt - src_rtt)%Qc else dst_rtt.

(** [if delta_ms and delta_ms > 0: edge_latencies.setdefault(edge, []).append(delta_ms)] *)
Definition record_delta (src dst : string) (delta : Qc)
    (m : gmap (string * string) (list Qc)) : gmap (string * string) (list Qc) :=
  if truthy delta && bool_decide (0 < delta)%Qc
  then <[(src, dst) := default [] (m !! (src, dst)) ++ [delta]]> m
  else m.

Fixpoint add_latency_edges (pairs : list (string * Qc))
    (m : gmap (string * string) (list Qc)) : gmap (string * string) (list Qc) :=
  match pairs with
  | (src_ip, src_rtt) :: (((dst_ip, dst_rtt) :: _) as rest) =>
      add_latency_edges rest (record_delta src_ip dst_ip (delta_ms src_rtt dst_rtt) m)
  | _ => m
  end.

Definition build_adjacency_with_latency (results : results_dict)
    : gmap (string * string) (list Qc) :=
  foldl (λ m '(_, hops), add_latency_edges (ip_rtt_pairs hops) m) ∅ results.

(** ** The specification's side of the derivations (section 4.3) *)

(** [b] follows [a] immediately in [l]. *)
Definition consecutive (a b : string) (l : list string) : Prop :=
  ∃ i, l !! i = Some a ∧ l !! S i = Some b.

(** An edge [a -> b] observed in some path of the result set. *)
Definition observed_edge (results : results_dict) (a b : string) : Prop :=
  ∃ dest hops, (dest, hops) ∈ results ∧ consecutive a b (present_ips hops).

(** The samples of the pair [(a, b)] along one address/RTT subsequence:
    [delta = next.rtt - current.rtt], kept when [delta > 0]. *)
Fixpoint spec_pair_samples (a b : string) (pairs : list (string * Qc)) : list Qc :=
  match pairs with
  | (x, rx) :: (((y, ry) :: _) as rest) =>
      (if bool_decide (x = a ∧ y = b ∧ (0 < ry - rx)%Qc) then [(ry - rx)%Qc] else [])
        ++ spec_pair_samples a b rest
  | _ => []
  end.

(** All samples of [(a, b)], path after path, in order. *)
Definition spec_edge_samples (results : results_dict) (a b : string) : list Qc :=
  mjoin (map (λ '(_, hops), spec_pair_samples a b (ip_rtt_pairs hops)) results).

(** The sample list keyed by [(a, b)]: the key exists iff there is a sample. *)
Definition spec_edge_latency_at (results : results_dict) (a b : string) : option (list Qc) :=
  match spec_edge_samples results a b with
  | [] => None
  | l => Some l
  end.

(** The edge [a -> b] is in an adjacency mapping. *)
Definition edge_in (adj : gmap string (gset string)) (a b : string) : Prop :=
  ∃ s, adj !! a = Some s ∧ b ∈ s.

(** A result set as the data model describes it: round-trip times are
    non-negative. *)
Definition rtts_nonneg (results : results_dict) : Prop :=
  ∀ dest hops h r, (dest, hops) ∈ results → h ∈ hops → hop_rtt h = Some r → (0 ≤ r)%Qc.

(** What [run] stores for a destination whose trace terminates: the hop
    list, or [[]] when the trace raised. *)
Definition recorded_hops (timeout : Qc) (port : Z) (env : trace_env) : list hop :=
  match traceroute_run timeout port env with
  | Some (PyOk hops) => hops
  | _ => []
  end.

(** The trace of a destination terminates with a hop list or with a
    [TracerouteError]. *)
Definition trace_terminates (timeout : Qc) (port : Z) (env : trace_env) : Prop :=
  ∃ r, traceroute_run timeout port env = Some r ∧
       ∀ e, r = PyRaise e → is_traceroute_error e = true.

(** [self.results] after [run] stored every destination of the batch in
    order, as Python's dict assignment does. *)
Definition store_batch (timeout : Qc) (port : Z) (results : results_dict) (b : batch)
    : results_dict :=
  foldl (λ r '(dest, env), dict_set dest (recorded_hops timeout port env) r) results b.

(** An environment in which name resolution fails with [socket.gaierror]. *)
Definition unresolvable_env : trace_env :=
  {| env_resolve := ResolveGaierror; env_raw_socket := SocketOk;
     env_udp_socket_ok := true; env_probes := [] |}.

(** A malformed name such as ["a..b"]: [gethostbyname] raises
    [UnicodeError]. *)
Definition malformed_name_env : trace_env :=
  {| env_resolve := ResolveRaises UnicodeError; env_raw_socket := SocketOk;
     env_udp_socket_ok := true; env_probes := [] |}.

(** A destination whose name resolves but whose raw socket is refused. *)
Definition permission_denied_env : trace_env :=
  {| env_resolve := Resolved "192.0.2.1"%string; env_raw_socket := SocketPermissionError;
     env_udp_socket_ok := true; env_probes := [] |}.

(** *** topology_dict (lines 142-150) *)

(** [sorted(list(v))] for a set of strings: Python orders [str] values
    lexicographically by code point, which is [String.le] on [string]. *)
Definition py_sorted_set (s : gset string) : list string :=
  merge_sort String.le (elements s).

(** [{k: sorted(list(v)) for k, v in adj.items()}] over
    [self.build_adjacency(results)]. *)
Definition topology_dict (nt : topologer) (results : option results_dict)
    : gmap string (list string) :=
  py_sorted_set <$> nt_build_adjacency nt results.

(** ** visualization.py *)

(** A [networkx.DiGraph]: its node set and its edge set. *)
Record digraph := {
  g_nodes : gset string;
  g_edges : gset (string * string)
}.

Definition empty_digraph : digraph := {| g_nodes := ∅; g_edges := ∅ |}.

(** [G.add_edge(u, v)] adds both end nodes and the edge. *)
Definition add_edge (u v : string) (G : digraph) : digraph :=
  {| g_nodes := {[u; v]} ∪ g_nodes G; g_edges := {[(u, v)]} ∪ g_edges G |}.

(** [for src, destinations in adjacency.items(): for dst in destinations:
    G.add_edge(src, dst)], starting from [nx.DiGraph()]. *)
Definition graph_of (adj : gmap string (gset string)) : digraph :=
  foldl (λ G '(src, dsts), foldl (λ G dst, add_edge src dst G) G (elements dsts))
    empty_digraph (map_to_list adj).

(** [G.out_degree(n)] *)
Definition out_degree (G : digraph) (n : string) : nat :=
  size (filter (λ e : string * string, e.1 = n) (g_edges G)).

(** *** TopologyVisualizer.get_graph_stats (lines 162-179) *)

Record graph_stats := {
  st_nodes : nat;
  st_edges : nat;
  st_sources : nat;
  st_destinations : nat
}.

(** [set(dst for dsts in adjacency.values() for dst in dsts)] *)
Definition all_next_hops (adj : gmap string (gset string)) : gset string :=
  foldl (λ acc dsts, foldl (λ acc dst, {[dst]} ∪ acc) acc (elements dsts))
    ∅ (map snd (map_to_list adj)).

Definition get_graph_stats (adj : gmap string (gset string)) : graph_stats :=
  let G := graph_of adj in
  {| st_nodes := size (g_nodes G);
     st_edges := size (g_edges G);
     st_sources := size adj;
     st_destinations := size (all_next_hops adj) |}.

(** *** TopologyVisualizer.plot_topology (lines 22-160)

    What the figure shows: the early return with a warning on an empty
    graph, or the node colouring, the edges, and the edge labels. A label
    is represented by the average it prints (the [:.1f] formatting of a
    float is not modelled); [None] when no label is drawn at all. Layout,
    saving and showing the figure are not modelled. *)
Inductive plot_outcome :=
  | PlotEmptyWarning
  | Plot (intermediate_nodes destination_nodes : gset string)
         (edges : gset (string * string))
         (edge_labels : option (gmap (string * string) Qc)).

(** [sum(latencies) / len(latencies)] *)
Definition py_sum (l : list Qc) : Qc := foldl Qcplus 0%Qc l.

Definition avg_latency (l : list Qc) : Qc :=
  (py_sum l / Q2Qc (inject_Z (Z.of_nat (length l))))%Qc.

(** [for (src, dst), latencies in edge_latencies.items(): if latencies: ...] *)
Definition edge_labels_of (lat : gmap (string * string) (list Qc))
    : gmap (string * string) Qc :=
  omap (λ l : list Qc, match l with [] => None | _ => Some (avg_latency l) end) lat.

Definition plot_topology (adjacency : gmap string (gset string))
    (destination_ips : option (gset string))
    (edge_latencies : option (gmap (string * string) (list Qc))) : plot_outcome :=
  let G := graph_of adjacency in
  if bool_decide (size (g_nodes G) = 0%nat) then PlotEmptyWarning else
  let all_nodes := g_nodes G in
  let dest_set := default ∅ destination_ips in
  let leaf_nodes := filter (λ n, out_degree G n = 0%nat) all_nodes in
  let destination_nodes := (dest_set ∩ all_nodes) ∪ leaf_nodes in
  let intermediate_nodes := all_nodes ∖ destination_nodes in
  let labels :=
    match edge_latencies with
    | Some lat => if bool_decide (lat = ∅) then None else Some (edge_labels_of lat)
    | None => None
    end in
  Plot intermediate_nodes destination_nodes (g_edges G) labels.

(** ** __main__.py *)

(** *** generate_random_public_ips (lines 17-52) *)

(** [str(n)] (or an f-string field) of a Python [int]. *)
Definition py_str_int (z : Z) : string :=
  if bool_decide (z < 0) then "-" +:+ pretty (Z.to_N (- z)) else pretty (Z.to_N z).

(** [f"{first}.{second}.{third}.{fourth}"] *)
Definition format_ip (first second third fourth : Z) : string :=
  py_str_int first +:+ "." +:+ py_str_int second +:+ "." +:+
  py_str_int third +:+ "." +:+ py_str_int fourth.

(** The private and reserved ranges the loop skips. *)
Definition reserved_ip (first second : Z) : bool :=
  bool_decide (first = 10) ||
  (bool_decide (first = 172) && bool_decide (16 ≤ second ≤ 31)) ||
  (bool_decide (first = 192) && bool_decide (second = 168)) ||
  bool_decide (first = 127) ||
  (bool_decide (first = 169) && bool_decide (second = 254)).

(** The results of the four [random.randint] calls of one iteration. *)
Definition draw : Type := (Z * Z * Z * Z)%type.

(** [random.randint(1, 223)], [randint(0, 255)] twice, [randint(1, 254)]
    return values in their closed ranges. *)
Definition randint_ranges (dr : draw) : Prop :=
  let '(first, second, third, fourth) := dr in
  1 ≤ first ≤ 223 ∧ 0 ≤ second ≤ 255 ∧ 0 ≤ third ≤ 255 ∧ 1 ≤ fourth ≤ 254.

(** The [while len(public_ips) < count] loop over the random draws;
    [None]: the modelled draws run out while the loop still needs more. *)
Fixpoint generate_loop (count : Z) (public_ips : list string) (draws : list draw)
    : option (list string) :=
  if bool_decide (Z.of_nat (length public_ips) < count) then
    match draws with
    | [] => None
    | (first, second, third, fourth) :: rest =>
        if reserved_ip first second then generate_loop count public_ips rest
        else generate_loop count (public_ips ++ [format_ip first second third fourth]) rest
    end
  else Some public_ips.

Definition generate_random_public_ips (count : Z) (draws : list draw) : option (list string) :=
  generate_loop count [] draws.

(** The draws the loop keeps, and the address it formats from one. *)
Definition accepted_draws (draws : list draw) : list draw :=
  filter (λ dr : draw, let '(first, second, _, _) := dr in reserved_ip first second = false) draws.

Definition format_draw (dr : draw) : string :=
  let '(first, second, third, fourth) := dr in format_ip first second third fourth.

(** *** main (lines 55-186) *)

(** The parsed command line ([args]). *)
Record cli_args := {
  arg_destinations : list string;
  arg_random : option Z;
  arg_port : Z;
  arg_parallel : bool;
  arg_workers : option Z;
  arg_timeout : Z;
  arg_visualize : bool;
  arg_output : option string
}.

Definition msg_random_not_positive : string :=
  "Error: --random COUNT must be a positive integer.".
Definition msg_no_destinations : string :=
  "Error: Either provide destination IPs or use --random to generate them.".

(** Lines 112-123: the destinations, or the message printed to stderr
    before [sys.exit(1)]. [if args.random:] is Python truthiness: [0] is
    false. *)
Definition choose_destinations (args : cli_args) (draws : list draw)
    : option (string + list string) :=
  let given :=
    match arg_destinations args with
    | [] => Some (inl msg_no_destinations)
    | dests => Some (inr dests)
    end in
  match arg_random args with
  | Some n =>
      if bool_decide (n ≠ 0) then
        if bool_decide (n ≤ 0) then Some (inl msg_random_not_positive)
        else inr <$> generate_random_public_ips n draws
      else given
  | None => given
  end.

(** What the [--visualize] block shows (lines 141-171). *)
Inductive viz_outcome :=
  | VizNoEdges
  | VizPlot (stats : graph_stats) (plot : plot_outcome).

Definition visualize (hops_dict : results_dict) (destinations : list string) : viz_outcome :=
  let adjacency := build_adjacency hops_dict in
  if bool_decide (adjacency = ∅) then VizNoEdges
  else VizPlot (get_graph_stats adjacency)
         (plot_topology adjacency (Some (list_to_set destinations))
            (Some (build_adjacency_with_latency hops_dict))).

(** How [main] ends: [sys.exit(1)] after a message on stderr, [sys.exit(1)]
    in the [except TracerouteError] handler, an exception that escapes
    [main], or a normal end with the destinations traced, the mapping
    [print_hops_dict] prints, and what [--visualize] shows. *)
Inductive main_outcome :=
  | MainExit (stderr : string)
  | MainTraceFailed (e : exn)
  | MainUncaught (e : exn)
  | MainDone (destinations : list string) (hops_dict : results_dict)
             (viz : option viz_outcome).

(** [main] on parsed arguments. [draws] are the random draws, [net d] the
    network the trace of [d] sees, [completion] the order in which the
    futures of [run_parallel] complete. [None]: the call does not end
    within the model. *)
Definition main (args : cli_args) (draws : list draw) (net : string → trace_env)
    (completion : list nat) : option main_outcome :=
  match choose_destinations args draws with
  | None => None
  | Some (inl msg) => Some (MainExit msg)
  | Some (inr destinations) =>
      let nt := new_topologer (Q2Qc (inject_Z (arg_timeout args))) (arg_port args) in
      let b := map (λ d, (d, net d)) destinations in
      let call :=
        if arg_parallel args then nt_run_parallel nt b (arg_workers args) completion
        else nt_run nt b in
      match call with
      | None => None
      | Some (_, PyRaise e) =>
          Some (if is_traceroute_error e then MainTraceFailed e else MainUncaught e)
      | Some (_, PyOk hops_dict) =>
          Some (MainDone destinations hops_dict
                  (if arg_visualize args then Some (visualize hops_dict destinations) else None))
      end
  end.

(** ** Shapes of recorded data *)

(** A hop as [Traceroute.run] records it: a timeout [(ttl, None, None)],
    or an address together with a round-trip time. *)
Definition hop_recorded (h : hop) : Prop :=
  (hop_ip h = None ∧ hop_rtt h = None) ∨
  ∃ a rt, hop_ip h = Some a ∧ hop_rtt h = Some rt.

Definition results_recorded (results : results_dict) : Prop :=
  ∀ dest hops h, (dest, hops) ∈ results → h ∈ hops → hop_recorded h.

(** The invariant of the latency mapping: non-empty lists of positive
    deltas. *)
Definition lat_ok (m : gmap (string * string) (list Qc)) : Prop :=
  ∀ k l, m !! k = Some l → l ≠ [] ∧ Forall (λ x, 0 < x)%Qc l.

(** No ["."] (character 46) in a string. *)
Fixpoint dot_free (s : string) : Prop :=
  match s with
  | EmptyString => True
  | String c s' => c ≠ Ascii.ascii_of_nat 46 ∧ dot_free s'
  end.

(** ** Concrete values *)

Definition qc (z : Z) : Qc := Q2Qc (inject_Z z).

(** A 24-byte IPv4 packet with a 20-byte header ([0x45]) whose control
    message has type [ty]. *)
Definition icmp_packet (ty : Byte.byte) : list Byte.byte :=
  Byte.x45 :: repeat Byte.x00 19 ++ [ty; Byte.x00; Byte.x00; Byte.x00].

(** Packets that arrive before the deadline and are not accepted. *)
Definition ignored_packets (timeout : Qc) (irr : list (Qc * string * list Byte.byte)) : Prop :=
  Forall (λ '(t, _, data),
            (t < timeout)%Qc ∧
            ∀ ty, parse_icmp_type (take 1024 data) = PyOk ty → accepted_type ty = false) irr.

Definition as_arrivals (irr : list (Qc * string * list Byte.byte)) : list arrival :=
  map (λ '(t, src, data), Packet t src data) irr.

(** A trace of [93.184.216.34]: ttl 1 times out, ttl 2 is answered by
    [10.0.0.1] (time exceeded), ttl 3 by the destination. *)
Definition sample_env : trace_env :=
  {| env_resolve := Resolved "93.184.216.34"%string;
     env_raw_socket := SocketOk;
     env_udp_socket_ok := true;
     env_probes :=
       [Sent [];
        Sent [Packet (Q2Qc (1 # 10)) "10.0.0.1" (icmp_packet Byte.x0b)];
        Sent [Packet (Q2Qc (1 # 5)) "93.184.216.34" (icmp_packet Byte.x03)]] |}.

Definition sample_hops : list hop :=
  [(1%nat, None, None);
   (2%nat, Some "10.0.0.1"%string, Some (qc 100));
   (3%nat, Some "93.184.216.34"%string, Some (qc 200))].

(** Appending the samples [l] to an entry that may be missing. *)
Definition extend_samples (o : option (list Qc)) (l : list Qc) : option (list Qc) :=
  match l with
  | [] => o
  | _ => Some (default [] o ++ l)
  end.

(** The path [[(1, A, 10.0), (2, B, 20.0), (3, D, 30.0)]] of section 8. *)
Definition path_ABD : list hop :=
  [(1%nat, Some "10.0.0.1"%string, Some (qc 10));
   (2%nat, Some "10.0.0.2"%string, Some (qc 20));
   (3%nat, Some "93.184.216.34"%string, Some (qc 30))].

(** The same path with the second hop timed out. *)
Definition path_A_gap_D : list hop :=
  [(1%nat, Some "10.0.0.1"%string, Some (qc 10));
   (2%nat, None, None);
   (3%nat, Some "93.184.216.34"%string, Some (qc 30))].

(** Parsed arguments with port 33434, a 2-second timeout and no output
    file. *)
Definition sample_cli (dests : list string) (random : option Z) (parallel : bool)
    (workers : option Z) (visualize : bool) : cli_args :=
  {| arg_destinations := dests; arg_random := random; arg_port := 33434;
     arg_parallel := parallel; arg_workers := workers; arg_timeout := 2;
     arg_visualize := visualize; arg_output := None |}.

(** [example.com] is traced as [sample_env]; every other name fails to
    resolve. *)
Definition sample_net (d : string) : trace_env :=
  if bool_decide (d = "example.com"%string) then sample_env
  else if bool_decide (d = "a..b"%string) then malformed_name_env
  else unresolvable_env.


(** A batch whose second name is malformed. *)
Definition aborted_batch : batch :=
  [("example.com"%string, sample_env); ("a..b"%string, malformed_name_env);
   ("no.such.host.invalid"%string, unresolvable_env)].

(** A batch with one traced and one unresolvable destination. *)
Definition sample_batch : batch :=
  [("example.com"%string, sample_env); ("no.such.host.invalid"%string, unresolvable_env)].

(** * Properties *)

(** Closes an equation between computed values: [Qc] values built along
    different paths are equal up to their canonicity proofs. *)
Ltac qc_compute :=
  vm_compute;
  repeat match goal with
  | |- ?x = ?x => reflexivity
  | |- Qcmake _ _ = Qcmake _ _ => apply Qc_decomp; reflexivity
  | |- _ => progress f_equal
  end.

(** Steps over the two checks of [_send_probe] at the head of
    [probe_loop] in a hypothesis [H] that expects a hop list: both checks
    raise, so both must pass. *)
Ltac probe_guards H :=
  simpl in H;
  match type of H with
  | context [bool_decide (255 < ?t)%nat] =>
      destruct (bool_decide (255 < t)%nat) eqn:?; [discriminate H|]
  end;
  match type of H with
  | context [bool_decide (?x < 0 ∨ 65535 < ?x)] =>
      destruct (bool_decide (x < 0 ∨ 65535 < x)) eqn:?; [discriminate H|]
  end.

(** ** Helper lemmas *)

Lemma byte_val_range (b : Byte.byte) : 0 ≤ byte_val b ≤ 255.
Proof.
  unfold byte_val. pose proof (Byte.to_N_bounded b). lia.
Qed.

Lemma ihl_of_nonneg (data : list Byte.byte) : 0 ≤ ihl_of data.
Proof.
  destruct data as [|b ?]; simpl; [lia|].
  pose proof (byte_val_range b).
  assert (0 ≤ Z.land (byte_val b) 15) by (apply Z.land_nonneg; lia). lia.
Qed.

(** Four bytes are available at offset [i]. *)
Lemma drop_four (l : list Byte.byte) (i : nat) :
  (i + 4 ≤ length l)%nat →
  ∃ x0 x1 x2 x3 l', drop i l = x0 :: x1 :: x2 :: x3 :: l'.
Proof.
  intros Hlen. remember (drop i l) as r eqn:Hr.
  assert (Hr' : (4 ≤ length r)%nat) by (subst r; rewrite length_drop; lia).
  destruct r as [|x0 [|x1 [|x2 [|x3 l']]]]; simpl in Hr'; try lia.
  eauto 6.
Qed.

Lemma parse_icmp_type_short (data : list Byte.byte) :
  short_packet data → parse_icmp_type data = PyOk None.
Proof.
  intros Hs. unfold parse_icmp_type.
  case_bool_decide as Hlt; [done|].
  destruct data as [|b0 rest]; [simpl in Hlt; lia|].
  destruct Hs as [Hs|Hs]; [lia|]. simpl in Hs.
  cbn [mbind pyres_bind py_index lookup list_lookup].
  rewrite bool_decide_true by exact Hs. done.
Qed.

Lemma parse_icmp_type_long (data : list Byte.byte) :
  ¬ short_packet data →
  ∃ b, data !! Z.to_nat (ihl_of data) = Some b ∧
       parse_icmp_type data = PyOk (Some (byte_val b)).
Proof.
  intros Hs. unfold short_packet in Hs.
  pose proof (ihl_of_nonneg data) as Hnn.
  destruct (drop_four data (Z.to_nat (ihl_of data))) as (x0 & x1 & x2 & x3 & l' & Hd).
  { lia. }
  exists x0. split.
  { rewrite <- (Nat.add_0_r (Z.to_nat (ihl_of data))), <- lookup_drop, Hd. done. }
  unfold parse_icmp_type.
  rewrite bool_decide_false by lia.
  destruct data as [|b0 rest]; [simpl in Hs; lia|].
  cbn [mbind pyres_bind py_index lookup list_lookup].
  simpl in Hs, Hd, Hnn |- *.
  rewrite bool_decide_false by lia.
  unfold py_slice.
  replace (Z.to_nat (Z.land (byte_val b0) 15 * 4 + 4) - Z.to_nat (Z.land (byte_val b0) 15 * 4))%nat
    with 4%nat by lia.
  rewrite Hd. done.
Qed.

Lemma parse_icmp_type_ok (data : list Byte.byte) : ∃ r, parse_icmp_type data = PyOk r.
Proof.
  destruct (decide ((length data < 20)%nat ∨ Z.of_nat (length data) < ihl_of data + 4))
    as [Hs|Hs]; fold (short_packet data) in Hs.
  - rewrite parse_icmp_type_short by exact Hs. eauto.
  - destruct (parse_icmp_type_long data Hs) as (b & _ & Hp). eauto.
Qed.

(** ** C10: [_parse_icmp_type] never raises. *)

(** C10: for every byte string, [_parse_icmp_type] returns normally (no
    [IndexError], no [struct.error]); it returns [None] exactly when the
    packet is shorter than 20 bytes or than its header length
    [(data[0] & 0x0F) * 4] plus 4; otherwise it returns the byte at the
    header-length offset, an integer in [0, 255]. *)
Theorem parse_icmp_type_total (data : list Byte.byte) :
  (∃ r, parse_icmp_type data = PyOk r) ∧
  (parse_icmp_type data = PyOk None ↔ short_packet data) ∧
  (¬ short_packet data →
     ∃ b, data !! Z.to_nat (ihl_of data) = Some b ∧
          parse_icmp_type data = PyOk (Some (byte_val b)) ∧
          0 ≤ byte_val b ≤ 255).
Proof.
  destruct (decide ((length data < 20)%nat ∨ Z.of_nat (length data) < ihl_of data + 4))
    as [Hs|Hs]; fold (short_packet data) in Hs.
  - rewrite parse_icmp_type_short by exact Hs.
    split; [eauto|]. split; [tauto|]. intros; contradiction.
  - destruct (parse_icmp_type_long data Hs) as (b & Hb & Hp).
    rewrite Hp. split; [eauto|]. split.
    + split; [discriminate|]. intros; contradiction.
    + intros _. exists b. auto using byte_val_range.
Qed.

(** ** Helper lemmas on the reply loop *)

Lemma Qc_sub_pos (x y : Qc) : (y < x)%Qc → ¬ (x - y ≤ 0)%Qc.
Proof.
  intros H Hle. apply (Qcplus_lt_mono_r _ _ (- y)) in H.
  replace (y + - y)%Qc with 0%Qc in H by ring.
  exact (Qclt_not_le _ _ H Hle).
Qed.

Lemma clock_after_lt (now t timeout : Qc) :
  (now < timeout)%Qc → (t < timeout)%Qc → (clock_after now t < timeout)%Qc.
Proof. unfold clock_after. case_bool_decide; auto. Qed.

Lemma accepted_type_true (ty : option Z) :
  accepted_type ty = true ↔ ty = Some 11 ∨ ty = Some 3.
Proof. unfold accepted_type. apply bool_decide_eq_true. Qed.

Lemma receive_loop_skips (timeout now : Qc) (st : reply)
    (irr : list (Qc * string * list Byte.byte)) (t : Qc) (src : string)
    (data : list Byte.byte) (ty : Z) (rest : list arrival) :
  (now < timeout)%Qc →
  ignored_packets timeout irr →
  (t < timeout)%Qc →
  parse_icmp_type (take 1024 data) = PyOk (Some ty) →
  accepted_type (Some ty) = true →
  ∃ rt, receive_loop timeout now st (as_arrivals irr ++ Packet t src data :: rest)
        = PyOk (Some src, Some ty, Some rt).
Proof.
  revert now st. induction irr as [|[[t' src'] data'] irr IH]; intros now st Hnow Hirr Ht Hp Hacc.
  - simpl. rewrite bool_decide_false by (apply Qc_sub_pos; exact Hnow).
    rewrite bool_decide_false by (apply Qclt_not_le, clock_after_lt; auto).
    rewrite Hp. simpl. rewrite Hacc. eauto.
  - unfold ignored_packets in *. inversion Hirr as [|? ? Hhd Hirr']; subst.
    destruct Hhd as [Ht' Hign].
    simpl. rewrite bool_decide_false by (apply Qc_sub_pos; exact Hnow).
    rewrite bool_decide_false by (apply Qclt_not_le, clock_after_lt; auto).
    destruct (parse_icmp_type (take 1024 data')) as [ty'|e] eqn:Hp'.
    + simpl. rewrite (Hign ty' eq_refl).
      apply IH; auto using clock_after_lt.
    + destruct (parse_icmp_type_ok (take 1024 data')) as [r Hr].
      congruence.
Qed.

(** ** C7: reply classification *)

(** C7: the type is the byte right after the header of length
    [(data[0] & 0x0F) * 4]; a packet is accepted (ending the wait) exactly
    when it is long enough and that byte is 11 (time exceeded) or 3
    (destination unreachable); a packet shorter than the header is not
    accepted; and packets that are not accepted do not end the wait: after
    any number of them, an accepted packet arriving before the timeout is
    the reply returned. *)
Theorem reply_classification :
  (∀ data : list Byte.byte,
     (∃ ty, parse_icmp_type data = PyOk ty ∧ accepted_type ty = true) ↔
     (¬ short_packet data ∧
      ∃ b, data !! Z.to_nat (ihl_of data) = Some b ∧ (byte_val b = 11 ∨ byte_val b = 3))) ∧
  (∀ data : list Byte.byte,
     short_packet data → parse_icmp_type data = PyOk None ∧ accepted_type None = false) ∧
  (∀ (timeout : Qc) (irr : list (Qc * string * list Byte.byte)) (t : Qc) (src : string)
     (data : list Byte.byte) (ty : Z) (rest : list arrival),
     (0 < timeout)%Qc →
     ignored_packets timeout irr →
     (t < timeout)%Qc →
     parse_icmp_type (take 1024 data) = PyOk (Some ty) →
     (ty = 11 ∨ ty = 3) →
     ∃ rt, receive_reply timeout (as_arrivals irr ++ Packet t src data :: rest)
           = PyOk (Some src, Some ty, Some rt)).
Proof.
  split; [|split].
  - intros data. split.
    + intros (ty & Hp & Hacc).
      destruct (decide ((length data < 20)%nat ∨ Z.of_nat (length data) < ihl_of data + 4))
        as [Hs|Hs]; fold (short_packet data) in Hs.
      * rewrite parse_icmp_type_short in Hp by exact Hs.
        injection Hp as <-. discriminate.
      * destruct (parse_icmp_type_long data Hs) as (b & Hb & Hp').
        rewrite Hp' in Hp. injection Hp as <-.
        apply accepted_type_true in Hacc.
        split; [exact Hs|]. exists b. split; [exact Hb|].
        destruct Hacc as [H|H]; injection H; auto.
    + intros (Hs & b & Hb & Hv).
      destruct (parse_icmp_type_long data Hs) as (b' & Hb' & Hp').
      rewrite Hb in Hb'. injection Hb' as <-.
      exists (Some (byte_val b)). split; [exact Hp'|].
      apply accepted_type_true. destruct Hv as [-> | ->]; auto.
  - intros data Hs. split; [by apply parse_icmp_type_short | reflexivity].
  - intros timeout irr t src data ty rest Hto Hirr Ht Hp Hty.
    apply receive_loop_skips; auto.
    apply accepted_type_true. destruct Hty as [-> | ->]; auto.
Qed.

(** ** C5: what a wait without an accepted reply returns *)

(** C5 (the docstring of [_receive_reply] promises [(None, None, None)] on
    timeout or parsing failure): an echo reply (type 0) from [192.0.2.7]
    half a second into a 2-second wait, and nothing else, makes
    [_receive_reply] return that sender, type 0 and 500 ms, not the
    no-reply triple; [Traceroute.run] then records it as the first hop. *)
Theorem receive_reply_keeps_ignored_sender :
  receive_reply (qc 2) [Packet (Q2Qc (1 # 2)) "192.0.2.7" (icmp_packet Byte.x00)]
    = PyOk (Some "192.0.2.7"%string, Some 0, Some (qc 500)) ∧
  receive_reply (qc 2) [Packet (Q2Qc (1 # 2)) "192.0.2.7" (icmp_packet Byte.x00)]
    ≠ PyOk no_reply ∧
  probe_loop (qc 2) 33434 "93.184.216.34" 1 []
    [Sent [Packet (Q2Qc (1 # 2)) "192.0.2.7" (icmp_packet Byte.x00)];
     Sent [Packet (Q2Qc (1 # 10)) "93.184.216.34" (icmp_packet Byte.x03)]]
    = Some (PyOk [(1%nat, Some "192.0.2.7"%string, Some (qc 500));
                  (2%nat, Some "93.184.216.34"%string, Some (qc 100))]).
Proof.
  split; [|split].
  - qc_compute.
  - vm_compute. discriminate.
  - qc_compute.
Qed.

(** ** C3: the ttl components of a returned hop list *)

Lemma probe_loop_ttls (timeout : Qc) (port : Z) (dest_ip : string) (ttl : nat)
    (hops : list hop) (probes : list probe_event) (res : list hop) :
  map hop_ttl hops = seq 1 (length hops) →
  ttl = S (length hops) →
  probe_loop timeout port dest_ip ttl hops probes = Some (PyOk res) →
  map hop_ttl res = seq 1 (length res).
Proof.
  revert ttl hops. induction probes as [|ev probes IH]; intros ttl hops Hh Httl Hrun;
    probe_guards Hrun; [discriminate|].
  assert (Hext : ∀ x : hop, hop_ttl x = ttl →
            map hop_ttl (hops ++ [x]) = seq 1 (length (hops ++ [x]))).
  { intros x Hx. rewrite map_app, Hh, length_app, Nat.add_1_r, seq_S. simpl.
    rewrite Hx, Httl. done. }
  destruct ev as [|pkts]; [discriminate|].
  destruct (receive_reply timeout pkts) as [[[addr icmp_type] rtt_ms]|e]; [|discriminate].
  destruct addr as [a|].
  - destruct (bool_decide (a = dest_ip) || bool_decide (icmp_type = Some 3)).
    + injection Hrun as <-. by apply Hext.
    + apply (IH (S ttl) (hops ++ [(ttl, Some a, rtt_ms)])); auto.
      rewrite length_app. simpl. lia.
  - apply (IH (S ttl) (hops ++ [(ttl, None, None)])); auto.
    rewrite length_app. simpl. lia.
Qed.

(** C3: whenever [Traceroute.run] returns a hop list, its ttl components
    are exactly [1, 2, ..., N], whatever the replies and timeouts were. *)
Theorem traceroute_run_ttls (timeout : Qc) (port : Z) (env : trace_env) (hops : list hop) :
  traceroute_run timeout port env = Some (PyOk hops) →
  map hop_ttl hops = seq 1 (length hops).
Proof.
  unfold traceroute_run. intros Hrun.
  destruct (resolve env) as [dest_ip|]; [|discriminate].
  destruct (create_sockets timeout env); [|discriminate].
  eapply probe_loop_ttls; [| |exact Hrun]; reflexivity.
Qed.

(** ** C9: what [Traceroute.run] returns *)





(** ** Witnesses *)

Lemma traceroute_run_ttls_witness :
  traceroute_run (qc 2) 33434 sample_env = Some (PyOk sample_hops) ∧
  map hop_ttl sample_hops = seq 1 (length sample_hops).
Proof.
  assert (H : traceroute_run (qc 2) 33434 sample_env = Some (PyOk sample_hops)) by qc_compute.
  split; [exact H|]. exact (traceroute_run_ttls (qc 2) 33434 sample_env _ H).
Defined.


(** An echo reply from [192.0.2.7] at 0.1 s, then a time-exceeded reply
    from [10.0.0.1] at 0.2 s, within a 2-second wait; and a 10-byte
    packet, shorter than an IPv4 header. *)
Lemma reply_classification_witness :
  (∃ rt, receive_reply (qc 2)
           (as_arrivals [(Q2Qc (1 # 10), "192.0.2.7"%string, icmp_packet Byte.x00)] ++
            [Packet (Q2Qc (1 # 5)) "10.0.0.1" (icmp_packet Byte.x0b)])
         = PyOk (Some "10.0.0.1"%string, Some 11, Some rt)) ∧
  parse_icmp_type (repeat Byte.x45 10) = PyOk None.
Proof.
  split.
  - apply (proj2 (proj2 reply_classification)).
    + vm_compute. reflexivity.
    + constructor; [|constructor]. split.
      * vm_compute. reflexivity.
      * intros ty Hp. vm_compute in Hp. injection Hp as <-. reflexivity.
    + vm_compute. reflexivity.
    + vm_compute. reflexivity.
    + left. reflexivity.
  - apply (proj1 (proj2 reply_classification)). left. simpl. lia.
Defined.

(** ** Python dict lemmas *)

Lemma dict_get_set {V} (k k' : string) (v : V) (d : list (string * V)) :
  dict_get k (dict_set k' v d) = if bool_decide (k = k') then Some v else dict_get k d.
Proof.
  induction d as [|[k1 v1] d IH]; simpl.
  - done.
  - destruct (decide (k' = k1)) as [<-|Hne].
    + rewrite (bool_decide_true (k' = k')) by done. simpl.
      by repeat case_bool_decide.
    + rewrite (bool_decide_false (k' = k1)) by done. simpl.
      rewrite IH. repeat case_bool_decide; subst; congruence.
Qed.

Lemma dict_keys_set {V} (k : string) (v : V) (d : list (string * V)) :
  dict_keys (dict_set k v d) =
    if bool_decide (k ∈ dict_keys d) then dict_keys d else dict_keys d ++ [k].
Proof.
  unfold dict_keys. induction d as [|[k1 v1] d IH]; simpl.
  - done.
  - destruct (decide (k = k1)) as [<-|Hne].
    + rewrite (bool_decide_true (k = k)) by done. simpl.
      rewrite bool_decide_true; [done | set_solver].
    + rewrite (bool_decide_false (k = k1)) by done. simpl.
      rewrite IH.
      case_bool_decide as Hin1; case_bool_decide as Hin2; try done;
        rewrite elem_of_cons in Hin2; tauto.
Qed.

Lemma store_batch_app (timeout : Qc) (port : Z) (r : results_dict) (b1 b2 : batch) :
  store_batch timeout port r (b1 ++ b2) = store_batch timeout port (store_batch timeout port r b1) b2.
Proof. unfold store_batch. by rewrite foldl_app. Qed.

Lemma store_batch_get_other (timeout : Qc) (port : Z) (r : results_dict) (b : batch) (d : string) :
  d ∉ map fst b → dict_get d (store_batch timeout port r b) = dict_get d r.
Proof.
  revert r. induction b as [|[d' env] b IH]; intros r Hd; simpl in *; [done|].
  rewrite elem_of_cons in Hd.
  rewrite IH by tauto. rewrite dict_get_set. rewrite bool_decide_false by tauto. done.
Qed.

Lemma store_batch_keys (timeout : Qc) (port : Z) (r : results_dict) (b : batch) :
  NoDup (dict_keys r ++ map fst b) →
  dict_keys (store_batch timeout port r b) = dict_keys r ++ map fst b.
Proof.
  revert r. induction b as [|[d env] b IH]; intros r Hnd; simpl in *.
  - by rewrite app_nil_r.
  - rewrite IH; rewrite dict_keys_set, bool_decide_false.
    + by rewrite <- app_assoc.
    + apply list.NoDup_app in Hnd as (_ & Hdis & _). intros Hin. apply (Hdis d Hin). set_solver.
    + by rewrite <- app_assoc.
    + apply list.NoDup_app in Hnd as (_ & Hdis & _). intros Hin. apply (Hdis d Hin). set_solver.
Qed.

Lemma store_batch_keeps_key (timeout : Qc) (port : Z) (r : results_dict) (b : batch) (d : string) :
  is_Some (dict_get d r) → is_Some (dict_get d (store_batch timeout port r b)).
Proof.
  revert r. induction b as [|[d' env] b IH]; intros r Hs; simpl; [done|].
  apply IH. rewrite dict_get_set. case_bool_decide; eauto.
Qed.

Lemma store_batch_has_key (timeout : Qc) (port : Z) (r : results_dict) (b : batch) (d : string) :
  d ∈ map fst b → is_Some (dict_get d (store_batch timeout port r b)).
Proof.
  revert r. induction b as [|[d' env] b IH]; intros r Hin; simpl in *.
  - by apply elem_of_nil in Hin.
  - apply elem_of_cons in Hin as [->|Hin]; [|by apply IH].
    apply store_batch_keeps_key. rewrite dict_get_set, bool_decide_true by done. eauto.
Qed.

(** ** The orchestrator *)

Lemma run_loop_store (timeout : Qc) (port : Z) (r : results_dict) (b : batch) :
  (∀ d env, (d, env) ∈ b → trace_terminates timeout port env) →
  run_loop timeout port r b = Some (store_batch timeout port r b, None).
Proof.
  revert r. induction b as [|[d env] b IH]; intros r Hterm; simpl; [done|].
  destruct (Hterm d env) as (res & Htr & Herr); [by left|].
  assert (IH' : ∀ r', run_loop timeout port r' b = Some (store_batch timeout port r' b, None)).
  { intros r'. apply IH. intros d' env' Hin. apply (Hterm d'). by right. }
  unfold recorded_hops at 1. rewrite Htr.
  destruct res as [hops|e].
  - apply IH'.
  - rewrite (Herr e eq_refl). apply IH'.
Qed.

Lemma run_loop_same_failure (timeout : Qc) (port : Z) (r : results_dict) (b1 b2 : batch)
    (d : string) (env1 env2 : trace_env) (e1 e2 : exn) :
  traceroute_run timeout port env1 = Some (PyRaise e1) → is_traceroute_error e1 = true →
  traceroute_run timeout port env2 = Some (PyRaise e2) → is_traceroute_error e2 = true →
  run_loop timeout port r (b1 ++ (d, env1) :: b2) = run_loop timeout port r (b1 ++ (d, env2) :: b2).
Proof.
  intros H1 He1 H2 He2. revert r. induction b1 as [|[d' env'] b1 IH]; intros r; simpl.
  - by rewrite H1, H2, He1, He2.
  - destruct (traceroute_run timeout port env') as [[hops|e]|]; [apply IH| |done].
    destruct (is_traceroute_error e); [apply IH|done].
Qed.

Lemma mapM_worker_same (timeout : Qc) (port : Z) (b1 b2 : batch) (x y : string * trace_env) :
  worker timeout port x = worker timeout port y →
  mapM (worker timeout port) (b1 ++ x :: b2) = mapM (worker timeout port) (b1 ++ y :: b2).
Proof.
  intros Hxy. apply Forall2_mapM_ext.
  apply Forall2_app; [|constructor; [exact Hxy|]];
    apply Forall_Forall2_diag, Forall_forall; done.
Qed.

(** ** C4: a refused raw socket *)

(** C4 (counterexample): a single destination whose raw socket is refused;
    [run] and [run_parallel] both return normally, with an empty hop list
    for it, and raise nothing. *)
Lemma permission_error_swallowed :
  nt_run (new_topologer (qc 2) 33434) [("192.0.2.1"%string, permission_denied_env)]
    = Some (set_results (new_topologer (qc 2) 33434) [("192.0.2.1"%string, [])],
            PyOk [("192.0.2.1"%string, [])]) ∧
  nt_run_parallel (new_topologer (qc 2) 33434) [("192.0.2.1"%string, permission_denied_env)]
    None [0%nat]
    = Some (set_results (new_topologer (qc 2) 33434) [("192.0.2.1"%string, [])],
            PyOk [("192.0.2.1"%string, [])]).
Proof. split; reflexivity. Qed.

(** C4 (as amended): when the raw socket is refused for a destination,
    [run] and [run_parallel] catch [TraceroutePermissionError] like any
    [TracerouteError]: each call behaves exactly as if that destination
    had failed name resolution (an empty hop list under its key), so the
    permission error is neither raised to the caller nor distinguishable
    from a resolution failure. *)
Theorem permission_denied_as_unresolved (nt : topologer) (b1 b2 : batch)
    (d : string) (env : trace_env) :
  (∃ ip, env_resolve env = Resolved ip) →
  env_raw_socket env = SocketPermissionError →
  nt_run nt (b1 ++ (d, env) :: b2) = nt_run nt (b1 ++ (d, unresolvable_env) :: b2) ∧
  ∀ workers completion,
    nt_run_parallel nt (b1 ++ (d, env) :: b2) workers completion =
    nt_run_parallel nt (b1 ++ (d, unresolvable_env) :: b2) workers completion.
Proof.
  intros [ip Hres] Hraw.
  assert (Htr : traceroute_run (nt_timeout nt) (nt_port nt) env
                = Some (PyRaise TraceroutePermissionError)).
  { unfold traceroute_run, resolve, create_sockets. by rewrite Hres, Hraw. }
  split.
  - unfold nt_run.
    rewrite (run_loop_same_failure _ _ _ b1 b2 d env unresolvable_env
               TraceroutePermissionError DNSResolveError); done.
  - intros workers completion. unfold nt_run_parallel.
    rewrite !length_app. simpl length.
    rewrite (mapM_worker_same _ _ b1 b2 (d, env) (d, unresolvable_env)); [done|].
    simpl. by rewrite Htr.
Qed.

Lemma permission_denied_as_unresolved_witness :
  nt_run (new_topologer (qc 2) 33434) ([] ++ ("192.0.2.1"%string, permission_denied_env) :: [])
  = nt_run (new_topologer (qc 2) 33434) ([] ++ ("192.0.2.1"%string, unresolvable_env) :: []).
Proof.
  apply (permission_denied_as_unresolved _ [] [] _ permission_denied_env).
  - by eexists.
  - reflexivity.
Defined.

(** ** C6: the result store across calls *)

(** C6 (the sibling [run_parallel] starts with [self.results = {}], [run]
    does not): on one instance, [run(["a.invalid"])] then
    [run(["b.invalid"])] returns and stores both destinations, while
    [run_parallel(["b.invalid"])] after the first call returns only the
    new one. *)
Theorem nt_run_keeps_earlier_results :
  let nt0 := new_topologer (qc 2) 33434 in
  let nt1 := set_results nt0 [("a.invalid"%string, [])] in
  nt_run nt0 [("a.invalid"%string, unresolvable_env)] = Some (nt1, PyOk [("a.invalid"%string, [])]) ∧
  nt_run nt1 [("b.invalid"%string, unresolvable_env)]
    = Some (set_results nt0 [("a.invalid"%string, []); ("b.invalid"%string, [])],
            PyOk [("a.invalid"%string, []); ("b.invalid"%string, [])]) ∧
  nt_run_parallel nt1 [("b.invalid"%string, unresolvable_env)] None [0%nat]
    = Some (set_results nt0 [("b.invalid"%string, [])], PyOk [("b.invalid"%string, [])]).
Proof. repeat split; reflexivity. Qed.

(** ** C8: per-destination failures in a batch *)

(** C8 (counterexample): a batch listing the same (unresolvable)
    destination twice has two destinations but yields one entry. *)
Lemma duplicate_destination_one_entry :
  nt_run (new_topologer (qc 2) 33434)
    [("a.invalid"%string, unresolvable_env); ("a.invalid"%string, unresolvable_env)]
  = Some (set_results (new_topologer (qc 2) 33434) [("a.invalid"%string, [])],
          PyOk [("a.invalid"%string, [])]) ∧
  length [("a.invalid"%string, [] : list hop)] ≠
  length [("a.invalid"%string, unresolvable_env); ("a.invalid"%string, unresolvable_env)].
Proof. split; [reflexivity | simpl; lia]. Qed.

(** C8 (as amended): when every trace of the batch ends with a hop list or
    a [TracerouteError], [run] returns normally (the batch is not aborted);
    every destination of the batch is a key of the returned mapping; the
    last trace of a destination decides its entry: its hop list, or [[]]
    when it raised; and on a fresh instance a batch of distinct
    destinations yields exactly one entry per destination. *)
Theorem nt_run_partial_failure (nt : topologer) (b : batch) :
  (∀ d env, (d, env) ∈ b → trace_terminates (nt_timeout nt) (nt_port nt) env) →
  ∃ r, nt_run nt b = Some (set_results nt r, PyOk r) ∧
    (∀ d, d ∈ map fst b → is_Some (dict_get d r)) ∧
    (∀ b1 d env b2, b = b1 ++ (d, env) :: b2 → d ∉ map fst b2 →
       dict_get d r = Some (recorded_hops (nt_timeout nt) (nt_port nt) env)) ∧
    (∀ b1 d env b2 e, b = b1 ++ (d, env) :: b2 → d ∉ map fst b2 →
       traceroute_run (nt_timeout nt) (nt_port nt) env = Some (PyRaise e) → dict_get d r = Some []) ∧
    (nt_results nt = [] → NoDup (map fst b) → length r = length b).
Proof.
  intros Hterm. exists (store_batch (nt_timeout nt) (nt_port nt) (nt_results nt) b).
  assert (Hlast : ∀ b1 d env b2, b = b1 ++ (d, env) :: b2 → d ∉ map fst b2 →
            dict_get d (store_batch (nt_timeout nt) (nt_port nt) (nt_results nt) b)
            = Some (recorded_hops (nt_timeout nt) (nt_port nt) env)).
  { intros b1 d env b2 -> Hd. rewrite store_batch_app. simpl.
    rewrite store_batch_get_other by exact Hd.
    rewrite dict_get_set, bool_decide_true by done. done. }
  split; [|split; [|split; [exact Hlast|split]]].
  - unfold nt_run. by rewrite run_loop_store.
  - intros d Hd. by apply store_batch_has_key.
  - intros b1 d env b2 e Hb Hd He. rewrite (Hlast b1 d env b2 Hb Hd).
    unfold recorded_hops. by rewrite He.
  - intros Hnil Hnd.
    rewrite <- (length_map fst (store_batch _ _ _ _)).
    change (map fst (store_batch (nt_timeout nt) (nt_port nt) (nt_results nt) b))
      with (dict_keys (store_batch (nt_timeout nt) (nt_port nt) (nt_results nt) b)).
    rewrite store_batch_keys; rewrite Hnil; simpl; [by rewrite length_map | exact Hnd].
Qed.

(** Three destinations, the second of which does not resolve. *)
Lemma nt_run_partial_failure_witness :
  ∃ r, nt_run (new_topologer (qc 2) 33434)
         [("example.com"%string, sample_env); ("no.such.host.invalid"%string, unresolvable_env);
          ("example.net"%string, sample_env)]
       = Some (set_results (new_topologer (qc 2) 33434) r, PyOk r) ∧
       dict_get "no.such.host.invalid" r = Some [] ∧ length r = 3%nat.
Proof.
  destruct (nt_run_partial_failure (new_topologer (qc 2) 33434)
              [("example.com"%string, sample_env); ("no.such.host.invalid"%string, unresolvable_env);
               ("example.net"%string, sample_env)])
    as (r & Hrun & _ & _ & Hfail & Hlen).
  - intros d env Hin. repeat (apply elem_of_cons in Hin as [Hin|Hin]);
      [..|by apply elem_of_nil in Hin]; injection Hin as -> ->.
    + exists (PyOk sample_hops). split; [qc_compute | discriminate].
    + eexists. split; [reflexivity|]. intros e He. injection He as <-. reflexivity.
    + exists (PyOk sample_hops). split; [qc_compute | discriminate].
  - exists r. split; [exact Hrun|]. split.
    + apply (Hfail [("example.com"%string, sample_env)] _ unresolvable_env
               [("example.net"%string, sample_env)] DNSResolveError); [done| |done].
      simpl. rewrite elem_of_cons, elem_of_nil. intros [H|H]; [discriminate|done].
    + apply Hlen; [done|]. repeat constructor; simpl; rewrite ?elem_of_cons, ?elem_of_nil;
        intros H; repeat destruct H as [H|H]; done.
Defined.

(** ** The adjacency mapping *)

Lemma consecutive_nil (a b : string) : ¬ consecutive a b [].
Proof. intros (i & Hi & _). done. Qed.

Lemma consecutive_single (a b x : string) : ¬ consecutive a b [x].
Proof. intros ([|i] & _ & Hi); done. Qed.

Lemma consecutive_cons2 (a b x y : string) (l : list string) :
  consecutive a b (x :: y :: l) ↔ (a = x ∧ b = y) ∨ consecutive a b (y :: l).
Proof.
  split.
  - intros ([|i] & Hi & Hj); simpl in Hi, Hj.
    + left. by injection Hi; injection Hj.
    + right. by exists i.
  - intros [[-> ->]|(i & Hi & Hj)].
    + by exists 0%nat.
    + by exists (S i).
Qed.

Lemma edge_in_setdefault_add (adj : gmap string (gset string)) (x y a b : string) :
  edge_in (setdefault_add x y adj) a b ↔ edge_in adj a b ∨ (a = x ∧ b = y).
Proof.
  unfold edge_in, setdefault_add. destruct (decide (a = x)) as [->|Hne].
  - rewrite lookup_insert_eq. split.
    + intros (s & [= <-] & Hb). apply elem_of_union in Hb as [Hb|Hb].
      * left. destruct (adj !! x) as [s|]; simpl in Hb; [eauto|set_solver].
      * right. split; [done|set_solver].
    + intros [(s & Hs & Hb)|[_ ->]]; eexists; split; [done| |done|];
        [rewrite Hs; simpl|]; set_solver.
  - rewrite lookup_insert_ne by congruence. split; [by left|].
    intros [H|[? _]]; [done|congruence].
Qed.

Lemma edge_in_add_path_edges (ips : list string) (adj : gmap string (gset string)) (a b : string) :
  edge_in (add_path_edges ips adj) a b ↔ edge_in adj a b ∨ consecutive a b ips.
Proof.
  revert adj. induction ips as [|x ips IH]; intros adj.
  - simpl. pose proof (consecutive_nil a b). tauto.
  - destruct ips as [|y l].
    + simpl. pose proof (consecutive_single a b x). tauto.
    + change (add_path_edges (x :: y :: l) adj) with (add_path_edges (y :: l) (setdefault_add x y adj)).
      rewrite IH, edge_in_setdefault_add, consecutive_cons2. tauto.
Qed.

Lemma add_path_edges_nonempty (ips : list string) (adj : gmap string (gset string)) :
  (∀ a s, adj !! a = Some s → s ≠ ∅) →
  ∀ a s, add_path_edges ips adj !! a = Some s → s ≠ ∅.
Proof.
  revert adj. induction ips as [|x ips IH]; intros adj Hne.
  - exact Hne.
  - destruct ips as [|y l]; [exact Hne|]. simpl. apply IH.
    intros a s. unfold setdefault_add. destruct (decide (a = x)) as [->|Ha].
    + rewrite lookup_insert_eq. intros [= <-]. set_solver.
    + rewrite lookup_insert_ne by congruence. apply Hne.
Qed.

Lemma build_adjacency_fold (results : results_dict) (adj : gmap string (gset string)) (a b : string) :
  edge_in (foldl (λ adj '(_, hops), add_path_edges (present_ips hops) adj) adj results) a b ↔
  edge_in adj a b ∨ observed_edge results a b.
Proof.
  revert adj. induction results as [|[dest hops] results IH]; intros adj; simpl.
  - unfold observed_edge. split; [by left|]. intros [H|(d & h & Hin & _)]; [done|].
    by apply elem_of_nil in Hin.
  - rewrite IH, edge_in_add_path_edges. unfold observed_edge. split.
    + intros [[H|H]|(d & h & Hin & Hc)]; [by left| |].
      * right. exists dest, hops. split; [by left|done].
      * right. exists d, h. split; [by right|done].
    + intros [H|(d & h & Hin & Hc)]; [by left; left|].
      apply elem_of_cons in Hin as [[= -> ->]|Hin]; [by left; right|].
      right. eauto.
Qed.

Lemma build_adjacency_fold_nonempty (results : results_dict) (adj : gmap string (gset string)) :
  (∀ a s, adj !! a = Some s → s ≠ ∅) →
  ∀ a s, foldl (λ adj '(_, hops), add_path_edges (present_ips hops) adj) adj results !! a
           = Some s → s ≠ ∅.
Proof.
  revert adj. induction results as [|[dest hops] results IH]; intros adj Hne; simpl.
  - exact Hne.
  - apply IH. by apply add_path_edges_nonempty.
Qed.

(** C1: [build_adjacency] yields exactly the graph whose edges join each
    present address of a path to the next present address (a timed-out
    hop is skipped, so the edge bridges it): [b] is in the set of [a]
    iff [a -> b] is such an edge of some path, and every key has a
    non-empty set. On the path [A, B, D] it yields [{A: {B}, B: {D}}];
    on [A, absent, D] it yields [{A: {D}}]. *)
Theorem build_adjacency_spec (results : results_dict) :
  (∀ a b, edge_in (build_adjacency results) a b ↔ observed_edge results a b) ∧
  (∀ a s, build_adjacency results !! a = Some s → s ≠ ∅) ∧
  build_adjacency [("example.com"%string, path_ABD)]
    = <["10.0.0.1" := {["10.0.0.2"]}]> (<["10.0.0.2" := {["93.184.216.34"]}]> ∅) ∧
  build_adjacency [("example.com"%string, path_A_gap_D)]
    = <["10.0.0.1" := {["93.184.216.34"]}]> ∅.
Proof.
  split; [|split; [|split]].
  - intros a b. unfold build_adjacency. rewrite build_adjacency_fold.
    unfold edge_in. rewrite lookup_empty. split; [|by right].
    intros [(s & Hs & _)|H]; [discriminate|done].
  - unfold build_adjacency. apply build_adjacency_fold_nonempty.
    intros a s. by rewrite lookup_empty.
  - vm_compute. reflexivity.
  - vm_compute. reflexivity.
Qed.

Lemma build_adjacency_spec_witness :
  {["10.0.0.2"%string]} ≠ (∅ : gset string) ∧
  edge_in (build_adjacency [("example.com"%string, path_ABD)]) "10.0.0.1" "10.0.0.2".
Proof.
  split.
  - apply (proj1 (proj2 (build_adjacency_spec [("example.com"%string, path_ABD)])) "10.0.0.1").
    vm_compute. reflexivity.
  - apply (proj1 (build_adjacency_spec [("example.com"%string, path_ABD)])).
    exists "example.com"%string, path_ABD. split; [by left|].
    exists 0%nat. split; reflexivity.
Defined.

(** ** The latency mapping *)

Lemma Qc_sub_nonpos (x y : Qc) : (0 ≤ y)%Qc → ¬ (0 < x - y)%Qc ∨ x ≠ 0%Qc.
Proof.
  intros Hy. destruct (decide (x = 0%Qc)) as [->|Hx]; [left|by right].
  intros Hlt. replace (0 - y)%Qc with (- y)%Qc in Hlt by ring.
  apply Qcopp_le_compat in Hy. replace (- 0)%Qc with 0%Qc in Hy by ring.
  exact (Qclt_not_le _ _ Hlt Hy).
Qed.

Lemma Qc_lt_ne (x : Qc) : (0 < x)%Qc → x ≠ 0%Qc.
Proof. intros Hlt ->. exact (Qclt_not_le _ _ Hlt (Qcle_refl 0)). Qed.

(** With non-negative round-trip times, the zero fallback of [delta_ms]
    agrees with the plain difference. *)
Lemma record_delta_nonneg (src dst : string) (src_rtt dst_rtt : Qc)
    (m : gmap (string * string) (list Qc)) :
  (0 ≤ src_rtt)%Qc → (0 ≤ dst_rtt)%Qc →
  record_delta src dst (delta_ms src_rtt dst_rtt) m =
    if bool_decide (0 < dst_rtt - src_rtt)%Qc
    then <[(src, dst) := default [] (m !! (src, dst)) ++ [(dst_rtt - src_rtt)%Qc]]> m
    else m.
Proof.
  intros Hs Hd. unfold record_delta, delta_ms, truthy.
  destruct (decide (dst_rtt = 0%Qc)) as [Hd0|Hd0].
  - subst dst_rtt. rewrite (bool_decide_false (0%Qc ≠ 0%Qc)) by tauto. simpl.
    rewrite bool_decide_false; [done|].
    destruct (Qc_sub_nonpos 0 src_rtt Hs); [done|congruence].
  - rewrite (bool_decide_true (dst_rtt ≠ 0%Qc)) by done. simpl.
    destruct (decide (src_rtt = 0%Qc)) as [Hs0|Hs0].
    + subst src_rtt. rewrite (bool_decide_false (0%Qc ≠ 0%Qc)) by tauto. simpl.
      replace (dst_rtt - 0)%Qc with dst_rtt by ring.
      rewrite (bool_decide_true (dst_rtt ≠ 0%Qc)) by done. done.
    + rewrite (bool_decide_true (src_rtt ≠ 0%Qc)) by done. simpl.
      destruct (decide (0 < dst_rtt - src_rtt)%Qc) as [Hpos|Hpos].
      * rewrite !(bool_decide_true (0 < dst_rtt - src_rtt)%Qc) by done.
        rewrite bool_decide_true by (by apply Qc_lt_ne). done.
      * rewrite !(bool_decide_false (0 < dst_rtt - src_rtt)%Qc) by done.
        by rewrite andb_false_r.
Qed.

Lemma extend_samples_app (o : option (list Qc)) (l1 l2 : list Qc) :
  extend_samples (extend_samples o l1) l2 = extend_samples o (l1 ++ l2).
Proof.
  destruct l1 as [|x l1]; [done|]. destruct l2 as [|y l2]; simpl.
  - by rewrite app_nil_r.
  - by rewrite <- app_assoc.
Qed.

Lemma add_latency_edges_lookup (pairs : list (string * Qc))
    (m : gmap (string * string) (list Qc)) (a b : string) :
  Forall (λ p, (0 ≤ p.2)%Qc) pairs →
  add_latency_edges pairs m !! (a, b) =
    extend_samples (m !! (a, b)) (spec_pair_samples a b pairs).
Proof.
  revert m. induction pairs as [|[x rx] pairs IH]; intros m Hnn; [done|].
  destruct pairs as [|[y ry] l]; [done|].
  inversion Hnn as [|? ? Hx Hnn']; subst. inversion Hnn' as [|? ? Hy _]; subst.
  simpl in Hx, Hy.
  change (add_latency_edges ((x, rx) :: (y, ry) :: l) m)
    with (add_latency_edges ((y, ry) :: l) (record_delta x y (delta_ms rx ry) m)).
  change (spec_pair_samples a b ((x, rx) :: (y, ry) :: l))
    with ((if bool_decide (x = a ∧ y = b ∧ (0 < ry - rx)%Qc) then [(ry - rx)%Qc] else [])
            ++ spec_pair_samples a b ((y, ry) :: l)).
  rewrite IH by exact Hnn'. rewrite <- extend_samples_app. f_equal.
  rewrite record_delta_nonneg by done.
  destruct (decide (0 < ry - rx)%Qc) as [Hpos|Hpos].
  - rewrite (bool_decide_true (0 < ry - rx)%Qc) by done.
    destruct (decide ((x, y) = (a, b))) as [[= -> ->]|Hne].
    + rewrite lookup_insert_eq, bool_decide_true by done. done.
    + rewrite lookup_insert_ne by done. rewrite bool_decide_false; [done|].
      intros (-> & -> & _). done.
  - rewrite (bool_decide_false (0 < ry - rx)%Qc) by done.
    rewrite bool_decide_false; [done|]. tauto.
Qed.

Lemma ip_rtt_pairs_nonneg (hops : list hop) :
  (∀ h r, h ∈ hops → hop_rtt h = Some r → (0 ≤ r)%Qc) →
  Forall (λ p, (0 ≤ p.2)%Qc) (ip_rtt_pairs hops).
Proof.
  intros Hnn. apply Forall_forall. intros [ip r] Hin.
  unfold ip_rtt_pairs in Hin. apply list_elem_of_omap in Hin as (h & Hh & Hf).
  destruct (hop_ip h), (hop_rtt h) as [r'|] eqn:Hr; try discriminate.
  injection Hf as <- <-. by apply (Hnn h).
Qed.

Lemma build_latency_fold (results : results_dict)
    (m : gmap (string * string) (list Qc)) (a b : string) :
  rtts_nonneg results →
  foldl (λ m '(_, hops), add_latency_edges (ip_rtt_pairs hops) m) m results !! (a, b)
    = extend_samples (m !! (a, b)) (spec_edge_samples results a b).
Proof.
  revert m. induction results as [|[dest hops] results IH]; intros m Hnn; simpl.
  - done.
  - unfold spec_edge_samples. simpl. rewrite <- extend_samples_app.
    rewrite IH.
    + f_equal. apply add_latency_edges_lookup, ip_rtt_pairs_nonneg.
      intros h r Hh Hr. apply (Hnn dest hops h r); [by left|done|done].
    + intros d hs h r Hin. apply (Hnn d hs h r). by right.
Qed.

(** C2: for every result set whose round-trip times are non-negative (the
    data model's RTTs), [build_adjacency_with_latency] keys [(a, b)] with
    the list of the deltas [next.rtt - current.rtt] that are positive, over
    the consecutive pairs [a], [b] of each path's subsequence of hops with
    an address and an RTT, path after path, in order (no key when there is
    no such delta). On the path [A, B, D] with RTTs 10, 20, 30 it yields
    [{(A,B): [10.0], (B,D): [10.0]}]. (The code computes the delta as
    [next.rtt] when either RTT is 0; with non-negative RTTs this changes
    nothing.) *)
Theorem build_adjacency_with_latency_spec (results : results_dict) :
  rtts_nonneg results →
  (∀ a b, build_adjacency_with_latency results !! (a, b) = spec_edge_latency_at results a b) ∧
  build_adjacency_with_latency [("example.com"%string, path_ABD)]
    = <[("10.0.0.1"%string, "10.0.0.2"%string) := [qc 10]]>
        (<[("10.0.0.2"%string, "93.184.216.34"%string) := [qc 10]]> ∅).
Proof.
  intros Hnn. split.
  - intros a b. unfold build_adjacency_with_latency.
    rewrite build_latency_fold by exact Hnn. rewrite lookup_empty.
    unfold spec_edge_latency_at. by destruct (spec_edge_samples results a b).
  - qc_compute.
Qed.

Lemma build_adjacency_with_latency_spec_witness :
  build_adjacency_with_latency [("example.com"%string, path_ABD)]
    !! ("10.0.0.1"%string, "10.0.0.2"%string)
  = spec_edge_latency_at [("example.com"%string, path_ABD)] "10.0.0.1" "10.0.0.2".
Proof.
  apply (build_adjacency_with_latency_spec [("example.com"%string, path_ABD)]).
  intros d hs h r Hin Hh Hr.
  apply elem_of_cons in Hin as [[= -> ->]|Hin]; [|by apply elem_of_nil in Hin].
  repeat (apply elem_of_cons in Hh as [->|Hh]); [..|by apply elem_of_nil in Hh];
    injection Hr as <-; vm_compute; intros H; discriminate H.
Defined.

(** Outside the data model: after an RTT of -5 ms, a next RTT of 0 gives
    the delta 0 (the zero fallback), where the plain difference is 5. *)
Lemma delta_ms_negative_rtt :
  delta_ms (qc (-5)) 0%Qc = 0%Qc ∧ (0 - qc (-5))%Qc = qc 5.
Proof. split; qc_compute. Qed.

(** * Further properties of the code *)

(** ** Traceroute.run: replies and hop shapes *)

Lemma clock_after_ge (now t : Qc) : (now ≤ clock_after now t)%Qc.
Proof.
  unfold clock_after. case_bool_decide as H; [apply Qcle_refl|].
  apply Qclt_le_weak, Qcnot_le_lt. exact H.
Qed.

Lemma receive_loop_result (timeout now : Qc) (st r : reply) (pkts : list arrival) :
  receive_loop timeout now st pkts = PyOk r →
  r = st ∨ ∃ src ty rt, r = (Some src, ty, Some (rt * ms_per_s)%Qc) ∧
                        (now ≤ rt)%Qc ∧ (rt < timeout)%Qc.
Proof.
  revert now st. induction pkts as [|[t src data|] pkts IH]; intros now st Hr; simpl in Hr.
  - case_bool_decide; injection Hr; auto.
  - case_bool_decide; [injection Hr; auto|].
    case_bool_decide as Hlate; [injection Hr; auto|].
    destruct (parse_icmp_type (take 1024 data)) as [ty|e]; simpl in Hr; [|discriminate].
    pose proof (clock_after_ge now t) as Hge.
    apply Qcnot_le_lt in Hlate.
    destruct (accepted_type ty).
    + injection Hr as <-. right. eauto 6.
    + destruct (IH _ _ Hr) as [->|(src' & ty' & rt & -> & Hle & Hlt)].
      * right. eauto 6.
      * right. exists src', ty', rt. split; [done|]. split; [|done].
        eapply Qcle_trans; eauto.
  - case_bool_decide; injection Hr; auto.
Qed.

Lemma receive_reply_recorded (timeout : Qc) (pkts : list arrival) (addr : option string)
    (ty : option Z) (rtt : option Qc) :
  receive_reply timeout pkts = PyOk (addr, ty, rtt) →
  (addr = None ∧ rtt = None) ∨ ∃ a rt, addr = Some a ∧ rtt = Some rt.
Proof.
  unfold receive_reply. intros Hr.
  destruct (receive_loop_result _ _ _ _ _ Hr) as [[= -> _ ->]|(src & ty' & rt & [= -> _ ->] & _)].
  - by left.
  - right. eauto.
Qed.

Lemma probe_loop_shape (timeout : Qc) (port : Z) (dest_ip : string) (ttl : nat)
    (hops : list hop) (probes : list probe_event) (res : list hop) :
  probe_loop timeout port dest_ip ttl hops probes = Some (PyOk res) →
  ∃ mid ttl' a r, res = hops ++ mid ++ [(ttl', Some a, r)] ∧
    Forall (λ h, hop_ip h ≠ Some dest_ip) mid ∧
    Forall hop_recorded (mid ++ [(ttl', Some a, r)]).
Proof.
  revert ttl hops. induction probes as [|ev probes IH]; intros ttl hops Hrun;
    probe_guards Hrun; [discriminate|].
  destruct ev as [|pkts]; [discriminate|].
  destruct (receive_reply timeout pkts) as [[[addr icmp_type] rtt_ms]|e] eqn:Hrep; [|discriminate].
  pose proof (receive_reply_recorded _ _ _ _ _ Hrep) as Hrec.
  destruct addr as [a|].
  - assert (Hh : hop_recorded (ttl, Some a, rtt_ms)).
    { unfold hop_recorded; simpl. destruct Hrec as [[? _]|(a' & rt & [= <-] & ->)];
        [discriminate|]. right. eauto. }
    destruct (bool_decide (a = dest_ip)) eqn:Hd; simpl in Hrun.
    + injection Hrun as <-. exists [], ttl, a, rtt_ms. simpl. repeat split; auto.
    + destruct (bool_decide (icmp_type = Some 3)).
      * injection Hrun as <-. exists [], ttl, a, rtt_ms. simpl. repeat split; auto.
      * destruct (IH _ _ Hrun) as (mid & ttl' & a' & r & -> & Hmid & Hrec').
        exists ((ttl, Some a, rtt_ms) :: mid), ttl', a', r.
        rewrite <- app_assoc. split; [done|]. split.
        -- constructor; [|done]. simpl. intros [= ->]. rewrite bool_decide_true in Hd; done.
        -- by constructor.
  - destruct (IH _ _ Hrun) as (mid & ttl' & a' & r & -> & Hmid & Hrec').
    exists ((ttl, None, None) :: mid), ttl', a', r.
    rewrite <- app_assoc. split; [done|]. split.
    + by constructor.
    + constructor; [|done]. left. done.
Qed.

(** ** The graph, its statistics and the plot *)

Lemma add_edges_inner (src : string) (dsts : list string) (G : digraph) :
  (∀ e, e ∈ g_edges (foldl (λ G dst, add_edge src dst G) G dsts) ↔
        e ∈ g_edges G ∨ (e.1 = src ∧ e.2 ∈ dsts)) ∧
  (∀ n, n ∈ g_nodes (foldl (λ G dst, add_edge src dst G) G dsts) ↔
        n ∈ g_nodes G ∨ (n = src ∧ dsts ≠ []) ∨ n ∈ dsts).
Proof.
  revert G. induction dsts as [|d dsts IH]; intros G; simpl.
  - split; intros; [|split]; set_solver.
  - destruct (IH (add_edge src d G)) as [IHe IHn]. split.
    + intros [x y]. rewrite IHe. unfold add_edge; simpl. rewrite elem_of_union, elem_of_singleton, elem_of_cons.
      split; [intros [[[= -> ->]|H]|[-> H]]; auto|]. 
      intros [H|[-> [->|H]]]; auto.
    + intros n. rewrite IHn. unfold add_edge; simpl.
      rewrite elem_of_union, elem_of_cons. rewrite elem_of_union, !elem_of_singleton.
      split.
      * intros [[[H|H]|H]|[[-> _]|H]]; auto.
      * intros [H|[[-> _]|[->|H]]]; auto.
Qed.

Lemma graph_of_fold (l : list (string * gset string)) (G : digraph) :
  (∀ e, e ∈ g_edges (foldl (λ G '(src, dsts), foldl (λ G dst, add_edge src dst G) G (elements dsts)) G l) ↔
        e ∈ g_edges G ∨ ∃ s, (e.1, s) ∈ l ∧ e.2 ∈ s) ∧
  (∀ n, n ∈ g_nodes (foldl (λ G '(src, dsts), foldl (λ G dst, add_edge src dst G) G (elements dsts)) G l) ↔
        n ∈ g_nodes G ∨ ∃ x s y, (x, s) ∈ l ∧ y ∈ s ∧ (n = x ∨ n = y)).
Proof.
  revert G. induction l as [|[src dsts] l IH]; intros G; simpl.
  - split; intros; set_solver.
  - destruct (IH (foldl (λ G dst, add_edge src dst G) G (elements dsts))) as [IHe IHn].
    destruct (add_edges_inner src (elements dsts) G) as [Ie In]. split.
    + intros e. rewrite IHe, Ie. setoid_rewrite elem_of_cons. setoid_rewrite elem_of_elements.
      split.
      * intros [[H|[H1 H2]]|(s & Hs & Hy)]; [by left| |eauto].
        right. exists dsts. destruct e; simpl in *; subst. auto.
      * intros [H|(s & [Hs|Hs] & Hy)]; [auto| |eauto].
        injection Hs as Hs <-. left. right. auto.
    + intros n. rewrite IHn, In. setoid_rewrite elem_of_cons. setoid_rewrite elem_of_elements.
      split.
      * intros [[H|[[-> Hne]|H]]|(x & s & y & Hs & Hy & Hn)]; [by left| | |eauto 8].
        -- right. destruct (elements dsts) as [|y ys] eqn:He; [done|].
           exists src, dsts, y. split; [by left|]. split; [|by left].
           apply elem_of_elements. rewrite He. by left.
        -- right. exists src, dsts, n. auto.
      * intros [H|(x & s & y & [Hs|Hs] & Hy & Hn)]; [auto| |eauto 10].
        injection Hs as <- <-. left. right. destruct Hn as [Hn|Hn]; subst n.
        -- left. split; [done|]. intros He. apply elem_of_elements in Hy.
           rewrite He in Hy. by apply elem_of_nil in Hy.
        -- right. first [done | by apply elem_of_elements].
Qed.

Lemma graph_of_edges (adj : gmap string (gset string)) (a b : string) :
  (a, b) ∈ g_edges (graph_of adj) ↔ edge_in adj a b.
Proof.
  unfold graph_of. rewrite (proj1 (graph_of_fold _ _)). simpl. unfold edge_in.
  setoid_rewrite elem_of_map_to_list. set_solver.
Qed.

Lemma graph_of_nodes (adj : gmap string (gset string)) (n : string) :
  n ∈ g_nodes (graph_of adj) ↔ (∃ y, edge_in adj n y) ∨ (∃ x, edge_in adj x n).
Proof.
  unfold graph_of. rewrite (proj2 (graph_of_fold _ _)). simpl. unfold edge_in.
  setoid_rewrite elem_of_map_to_list. split.
  - intros [H|(x & s & y & Hs & Hy & [Hn|Hn])]; try subst n; [set_solver| |]; eauto.
  - intros [(y & s & Hs & Hy)|(x & s & Hs & Hy)]; right; eauto 8.
Qed.

Lemma all_next_hops_inner (acc : gset string) (l : list string) (n : string) :
  n ∈ foldl (λ acc dst, {[dst]} ∪ acc) acc l ↔ n ∈ acc ∨ n ∈ l.
Proof.
  revert acc. induction l as [|x l IH]; intros acc; simpl.
  - set_solver.
  - rewrite IH, elem_of_union, elem_of_singleton, elem_of_cons. tauto.
Qed.

Lemma all_next_hops_spec (adj : gmap string (gset string)) (n : string) :
  n ∈ all_next_hops adj ↔ ∃ x, edge_in adj x n.
Proof.
  unfold all_next_hops, edge_in.
  assert (Hgen : ∀ (ls : list (gset string)) (acc : gset string),
            n ∈ foldl (λ acc dsts, foldl (λ acc dst, {[dst]} ∪ acc) acc (elements dsts)) acc ls
            ↔ n ∈ acc ∨ ∃ s, s ∈ ls ∧ n ∈ s).
  { induction ls as [|s ls IH]; intros acc; simpl.
    - set_solver.
    - rewrite IH, all_next_hops_inner, elem_of_elements. set_solver. }
  rewrite Hgen. setoid_rewrite list_elem_of_fmap. split.
  - intros [H|(s & ([x s'] & -> & Hin) & Hn)]; [set_solver|].
    apply elem_of_map_to_list in Hin. simpl. eauto.
  - intros (x & s & Hs & Hn). right. exists s. split; [|done].
    exists (x, s). split; [done|]. by apply elem_of_map_to_list.
Qed.

Lemma out_degree_zero (adj : gmap string (gset string)) (n : string) :
  out_degree (graph_of adj) n = 0%nat ↔ ¬ ∃ y, edge_in adj n y.
Proof.
  unfold out_degree. rewrite size_empty_iff. split.
  - intros Hempty (y & Hy). apply graph_of_edges in Hy.
    assert (Hin : (n, y) ∈ filter (λ e : string * string, e.1 = n) (g_edges (graph_of adj))).
    { apply elem_of_filter. done. }
    rewrite Hempty in Hin. set_solver.
  - intros Hno [x y]. rewrite elem_of_filter. simpl. split; [|set_solver].
    intros [-> Hxy]. exfalso. apply Hno. exists y. by apply graph_of_edges.
Qed.

Lemma size_union_le (X Y : gset string) : (size (X ∪ Y) ≤ size X + size Y)%nat.
Proof.
  rewrite size_union_alt. pose proof (subseteq_size (Y ∖ X) Y ltac:(set_solver)). lia.
Qed.

Lemma size_set_map_le {A B} `{Countable A, Countable B} (f : A → B) (X : gset A) :
  (size (set_map (D:=gset B) f X) ≤ size X)%nat.
Proof.
  induction X as [|x X Hx IH] using set_ind_L.
  - rewrite set_map_empty. rewrite !size_empty. lia.
  - rewrite set_map_union_L, set_map_singleton_L.
    rewrite (size_union {[x]} X) by set_solver. rewrite size_singleton.
    rewrite size_union_alt, size_singleton.
    pose proof (subseteq_size (set_map (D:=gset B) f X ∖ {[f x]}) (set_map (D:=gset B) f X)
                  ltac:(set_solver)). lia.
Qed.

Lemma build_adjacency_edges (results : results_dict) (a b : string) :
  edge_in (build_adjacency results) a b ↔ observed_edge results a b.
Proof.
  unfold build_adjacency. rewrite build_adjacency_fold.
  unfold edge_in. rewrite lookup_empty. split; [|by right].
  intros [(s & Hs & _)|H]; [discriminate|done].
Qed.

Lemma build_adjacency_nonempty (results : results_dict) (a : string) (s : gset string) :
  build_adjacency results !! a = Some s → s ≠ ∅.
Proof.
  unfold build_adjacency. apply build_adjacency_fold_nonempty.
  intros a' s'. by rewrite lookup_empty.
Qed.

Lemma stats_sets (adj : gmap string (gset string)) :
  all_next_hops adj ⊆ g_nodes (graph_of adj) ∧
  g_nodes (graph_of adj) ⊆ dom adj ∪ all_next_hops adj ∧
  all_next_hops adj ⊆ set_map snd (g_edges (graph_of adj)).
Proof.
  split; [|split]; intros n.
  - rewrite all_next_hops_spec, graph_of_nodes. auto.
  - rewrite graph_of_nodes, elem_of_union, all_next_hops_spec, elem_of_dom.
    intros [(y & s & Hs & _)|H]; [left; eauto|auto].
  - rewrite all_next_hops_spec, elem_of_map. intros (x & Hx).
    exists (x, n). split; [done|]. by apply graph_of_edges.
Qed.

(** X9: in [get_graph_stats], destinations <= nodes <= sources +
    destinations, and destinations <= edges. *)
Theorem get_graph_stats_bounds (adj : gmap string (gset string)) :
  (st_destinations (get_graph_stats adj) ≤ st_nodes (get_graph_stats adj))%nat ∧
  (st_nodes (get_graph_stats adj)
     ≤ st_sources (get_graph_stats adj) + st_destinations (get_graph_stats adj))%nat ∧
  (st_destinations (get_graph_stats adj) ≤ st_edges (get_graph_stats adj))%nat.
Proof.
  destruct (stats_sets adj) as (H1 & H2 & H3). unfold get_graph_stats; simpl.
  split; [|split].
  - by apply subseteq_size.
  - rewrite <- (size_dom adj). etrans; [by apply subseteq_size|]. apply size_union_le.
  - etrans; [by apply subseteq_size|]. apply size_set_map_le.
Qed.

(** X10: on an adjacency built by [build_adjacency], every source
    is a node and has an outgoing edge, so sources <= nodes and
    sources <= edges. There are no edges exactly when the adjacency is
    empty. *)
Theorem get_graph_stats_adjacency (results : results_dict) :
  (st_sources (get_graph_stats (build_adjacency results))
     ≤ st_nodes (get_graph_stats (build_adjacency results)))%nat ∧
  (st_sources (get_graph_stats (build_adjacency results))
     ≤ st_edges (get_graph_stats (build_adjacency results)))%nat ∧
  (st_edges (get_graph_stats (build_adjacency results)) = 0%nat ↔ build_adjacency results = ∅).
Proof.
  set (adj := build_adjacency results).
  assert (Hkey : ∀ a, a ∈ dom adj → ∃ y, edge_in adj a y).
  { intros a Ha. apply elem_of_dom in Ha as [s Hs].
    destruct (set_choose_L s (build_adjacency_nonempty results a s Hs)) as [y Hy].
    exists y, s. done. }
  unfold get_graph_stats; simpl. rewrite <- (size_dom adj). split; [|split].
  - apply subseteq_size. intros a Ha. apply graph_of_nodes. left. by apply Hkey.
  - etrans; [|apply (size_set_map_le fst)]. apply subseteq_size.
    intros a Ha. destruct (Hkey a Ha) as [y Hy]. apply elem_of_map.
    exists (a, y). split; [done|]. by apply graph_of_edges.
  - rewrite size_empty_iff. split.
    + intros Hempty. apply map_eq. intros a. rewrite lookup_empty.
      destruct (adj !! a) as [s|] eqn:Hs; [|done]. exfalso.
      destruct (Hkey a) as [y Hy]; [by apply elem_of_dom|].
      apply graph_of_edges in Hy. rewrite Hempty in Hy. set_solver.
    + intros Hadj. apply elem_of_equiv_empty. intros [x y] Hxy. apply graph_of_edges in Hxy. destruct Hxy as (s & Hs & _).
      rewrite Hadj, lookup_empty in Hs. discriminate.
Qed.

Lemma out_degree_pos (adj : gmap string (gset string)) (n : string) :
  out_degree (graph_of adj) n ≠ 0%nat ↔ ∃ y, edge_in adj n y.
Proof.
  split.
  - intros Hne. unfold out_degree in Hne.
    destruct (size_pos_elem_of (filter (λ e : string * string, e.1 = n) (g_edges (graph_of adj))))
      as [[x y] Hxy]; [lia|].
    apply elem_of_filter in Hxy as [Hx Hxy]. simpl in Hx. subst x.
    exists y. by apply graph_of_edges.
  - intros Hy Hz. by apply out_degree_zero in Hz.
Qed.

(** X11: [plot_topology] returns early with a warning exactly when the
    adjacency has no edge. Otherwise it draws exactly the adjacency's
    edges and colours every node as intermediate or destination, never
    both. A node is intermediate exactly when it has an outgoing edge and
    is not a given destination IP. *)
Theorem plot_topology_layout (adj : gmap string (gset string)) (dips : option (gset string))
    (lat : option (gmap (string * string) (list Qc))) :
  (plot_topology adj dips lat = PlotEmptyWarning ↔ ∀ a b, ¬ edge_in adj a b) ∧
  (∀ inter dest E L, plot_topology adj dips lat = Plot inter dest E L →
     (∀ a b, (a, b) ∈ E ↔ edge_in adj a b) ∧
     (∀ n, n ∈ inter ∨ n ∈ dest ↔ (∃ y, edge_in adj n y) ∨ (∃ x, edge_in adj x n)) ∧
     inter ## dest ∧
     (∀ n, n ∈ inter ↔ (∃ y, edge_in adj n y) ∧ n ∉ default ∅ dips)).
Proof.
  unfold plot_topology. case_bool_decide as Hz.
  - apply size_empty_iff in Hz. split; [|done].
    split; [|done]. intros _ a b Hab. apply graph_of_edges in Hab.
    assert (Ha : a ∈ g_nodes (graph_of adj)).
    { apply graph_of_nodes. left. exists b. by apply graph_of_edges. }
    rewrite Hz in Ha. set_solver.
  - split.
    + split; [done|]. intros Hno. exfalso. apply Hz.
      apply size_empty_iff, elem_of_equiv_empty. intros n Hn.
      apply graph_of_nodes in Hn as [(y & Hy)|(x & Hx)]; eapply Hno; eauto.
    + intros inter dest E L [= <- <- <- _]. split; [|split; [|split]].
      * intros a b. apply graph_of_edges.
      * intros n. rewrite <- graph_of_nodes. set_unfold. split; [tauto|].
        intros Hn. destruct (decide (n ∈ default ∅ dips)); [tauto|].
        destruct (decide (out_degree (graph_of adj) n = 0%nat)); tauto.
      * set_solver.
      * intros n. rewrite <- out_degree_pos. set_unfold. split.
        -- intros (Hn & Hnd). split; [|tauto]. intros Hz'. apply Hnd. right. auto.
        -- intros [Hd Hnd]. split.
           ++ apply graph_of_nodes. left. by apply out_degree_pos.
           ++ tauto.
Qed.

(** ** Latency invariants *)

Lemma record_delta_ok src dst d m : lat_ok m → lat_ok (record_delta src dst d m).
Proof.
  unfold record_delta. intros Hm.
  destruct (truthy d && bool_decide (0 < d)%Qc) eqn:Hd; [|done].
  apply andb_true_iff in Hd as [_ Hd]. apply bool_decide_eq_true in Hd.
  intros k l. destruct (decide (k = (src, dst))) as [->|Hne].
  - rewrite lookup_insert_eq. intros [= <-]. split.
    + intros Hnil. apply app_eq_nil in Hnil as [_ ?]. discriminate.
    + apply Forall_app. split; [|by constructor].
      destruct (m !! (src, dst)) as [l0|] eqn:Hl0; simpl; [|constructor].
      by destruct (Hm _ _ Hl0).
  - rewrite lookup_insert_ne by congruence. apply Hm.
Qed.

Lemma add_latency_edges_ok pairs m : lat_ok m → lat_ok (add_latency_edges pairs m).
Proof.
  revert m. induction pairs as [|[x rx] pairs IH]; intros m Hm; [done|].
  destruct pairs as [|[y ry] l]; [done|].
  change (add_latency_edges ((x, rx) :: (y, ry) :: l) m)
    with (add_latency_edges ((y, ry) :: l) (record_delta x y (delta_ms rx ry) m)).
  apply IH. by apply record_delta_ok.
Qed.

Lemma latency_lat_ok (results : results_dict) : lat_ok (build_adjacency_with_latency results).
Proof.
  unfold build_adjacency_with_latency.
  assert (Hgen : ∀ m, lat_ok m →
            lat_ok (foldl (λ m '(_, hops), add_latency_edges (ip_rtt_pairs hops) m) m results)).
  { induction results as [|[d hops] results IH]; intros m Hm; simpl; [done|].
    apply IH. by apply add_latency_edges_ok. }
  apply Hgen. intros k l. by rewrite lookup_empty.
Qed.

(** X12: every entry of [build_adjacency_with_latency] is a non-empty
    list of positive deltas. *)
Theorem build_adjacency_with_latency_positive (results : results_dict)
    (k : string * string) (l : list Qc) :
  build_adjacency_with_latency results !! k = Some l → l ≠ [] ∧ Forall (λ x, 0 < x)%Qc l.
Proof. apply latency_lat_ok. Qed.

(** ** Edge labels *)

Lemma py_sum_pos (acc : Qc) (l : list Qc) :
  (0 ≤ acc)%Qc → Forall (λ x, 0 < x)%Qc l → l ≠ [] → (0 < foldl Qcplus acc l)%Qc.
Proof.
  revert acc. induction l as [|x l IH]; intros acc Hacc Hl Hne; [done|].
  inversion Hl as [|? ? Hx Hl']; subst. simpl.
  assert (Hax : (0 < acc + x)%Qc).
  { eapply Qcle_lt_trans; [exact Hacc|].
    assert (H : (0 + acc < x + acc)%Qc) by (apply Qcplus_lt_mono_r; exact Hx).
    rewrite Qcplus_0_l, Qcplus_comm in H. exact H. }
  destruct l as [|y l]; [done|]. apply IH; [by apply Qclt_le_weak|done|done].
Qed.

Lemma avg_latency_pos (l : list Qc) :
  l ≠ [] → Forall (λ x, 0 < x)%Qc l → (0 < avg_latency l)%Qc.
Proof.
  intros Hne Hl. unfold avg_latency.
  assert (Hs : (0 < py_sum l)%Qc) by (apply py_sum_pos; [apply Qcle_refl|done|done]).
  assert (Hn : (0 < Q2Qc (inject_Z (Z.of_nat (length l))))%Qc).
  { destruct l as [|x l]; [done|]. unfold Qclt, Q2Qc. cbn [this].
    rewrite Qred_correct, (Qred_correct (inject_Z _)).
    change (inject_Z 0 < inject_Z (Z.of_nat (length (x :: l))))%Q.
    rewrite <- Zlt_Qlt. simpl length. lia. }
  set (n := Q2Qc (inject_Z (Z.of_nat (length l)))) in *.
  apply Qcnot_le_lt. intros Hle.
  assert (Hmul : (py_sum l / n * n ≤ 0 * n)%Qc).
  { apply Qcmult_le_compat_r; [done|by apply Qclt_le_weak]. }
  rewrite Qcmult_comm, Qcmult_div_r in Hmul by (intros H; rewrite H in Hn; done).
  rewrite Qcmult_0_l in Hmul. exact (Qclt_not_le _ _ Hs Hmul).
Qed.

Lemma add_latency_edges_keys (pairs : list (string * Qc)) (m : gmap (string * string) (list Qc))
    (a b : string) (l : list Qc) :
  add_latency_edges pairs m !! (a, b) = Some l →
  is_Some (m !! (a, b)) ∨ consecutive a b (map fst pairs).
Proof.
  revert m. induction pairs as [|[x rx] pairs IH]; intros m Hl; [eauto|].
  destruct pairs as [|[y ry] rest]; [eauto|].
  change (add_latency_edges ((x, rx) :: (y, ry) :: rest) m)
    with (add_latency_edges ((y, ry) :: rest) (record_delta x y (delta_ms rx ry) m)) in Hl.
  change (map fst ((x, rx) :: (y, ry) :: rest)) with (x :: y :: map fst rest).
  rewrite consecutive_cons2.
  destruct (IH _ Hl) as [Hs|Hc]; [|by right; right].
  unfold record_delta in Hs.
  destruct (truthy (delta_ms rx ry) && bool_decide (0 < delta_ms rx ry)%Qc); [|by left].
  destruct (decide ((x, y) = (a, b))) as [[= -> ->]|Hne].
  - right. left. done.
  - rewrite lookup_insert_ne in Hs by done. by left.
Qed.

Lemma latency_key_observed (results : results_dict) (a b : string) (l : list Qc) :
  build_adjacency_with_latency results !! (a, b) = Some l →
  ∃ dest hops, (dest, hops) ∈ results ∧ consecutive a b (map fst (ip_rtt_pairs hops)).
Proof.
  unfold build_adjacency_with_latency.
  assert (Hgen : ∀ (rs : results_dict) m,
            is_Some (foldl (λ m '(_, hops), add_latency_edges (ip_rtt_pairs hops) m) m rs !! (a, b)) →
            is_Some (m !! (a, b)) ∨
            ∃ dest hops, (dest, hops) ∈ rs ∧ consecutive a b (map fst (ip_rtt_pairs hops))).
  { induction rs as [|[d hops] rs IH]; intros m Hs; simpl in *; [by left|].
    destruct (IH _ Hs) as [[l' Hl']|(d' & h' & Hin & Hc)].
    - destruct (add_latency_edges_keys _ _ _ _ _ Hl') as [H|H]; [by left|].
      right. exists d, hops. split; [by left|done].
    - right. exists d', h'. split; [by right|done]. }
  intros Hl. destruct (Hgen results ∅) as [[l' Hl']|H]; [eauto| |done].
  by rewrite lookup_empty in Hl'.
Qed.

Lemma ip_rtt_pairs_fst (hops : list hop) :
  (∀ h, h ∈ hops → hop_ip h ≠ None → hop_rtt h ≠ None) →
  map fst (ip_rtt_pairs hops) = present_ips hops.
Proof.
  induction hops as [|h hops IH]; intros Hp; [done|].
  assert (IH' : map fst (ip_rtt_pairs hops) = present_ips hops)
    by (apply IH; intros h' Hh'; apply Hp; by right).
  unfold ip_rtt_pairs, present_ips in *. simpl.
  destruct (hop_ip h) as [ip|] eqn:Hip; destruct (hop_rtt h) as [r|] eqn:Hr; simpl;
    first [exact IH' | f_equal; exact IH' | exfalso; apply (Hp h); [by left|congruence|done]].
Qed.

Lemma latency_keys_edges (results : results_dict) (a b : string) (l : list Qc) :
  (∀ dest hops h, (dest, hops) ∈ results → h ∈ hops → hop_ip h ≠ None → hop_rtt h ≠ None) →
  build_adjacency_with_latency results !! (a, b) = Some l →
  edge_in (build_adjacency results) a b.
Proof.
  intros Hp Hl.
  destruct (latency_key_observed _ _ _ _ Hl) as (d & hops & Hin & Hc).
  unfold build_adjacency. rewrite build_adjacency_fold. right.
  exists d, hops. split; [done|]. rewrite <- ip_rtt_pairs_fst; [done|].
  intros h Hh. exact (Hp d hops h Hin Hh).
Qed.

(** X13: when every hop with an address has an RTT, every key of
    [build_adjacency_with_latency] is an edge of [build_adjacency]. *)
Theorem latency_edges_in_adjacency (results : results_dict) :
  (∀ dest hops h, (dest, hops) ∈ results → h ∈ hops → hop_ip h ≠ None → hop_rtt h ≠ None) →
  ∀ a b l, build_adjacency_with_latency results !! (a, b) = Some l →
           edge_in (build_adjacency results) a b.
Proof. intros Hp a b l. by apply latency_keys_edges. Qed.

(** ** topology_dict *)

(** X8: [topology_dict] has the keys of the adjacency mapping; each
    value lists the key's next hops sorted, without duplicates, and is
    never empty. *)
Theorem topology_dict_spec (nt : topologer) (results : option results_dict) (k : string) :
  (is_Some (topology_dict nt results !! k) ↔ is_Some (nt_build_adjacency nt results !! k)) ∧
  ∀ l, topology_dict nt results !! k = Some l →
    (∀ x, x ∈ l ↔ edge_in (nt_build_adjacency nt results) k x) ∧
    StronglySorted String.le l ∧ NoDup l ∧ l ≠ [].
Proof.
  unfold topology_dict. rewrite lookup_fmap. split.
  - destruct (nt_build_adjacency nt results !! k); simpl; split; intros [? ?]; eauto; discriminate.
  - intros l Hl. destruct (nt_build_adjacency nt results !! k) as [s|] eqn:Hs; [|discriminate].
    injection Hl as <-. unfold py_sorted_set.
    pose proof (merge_sort_Permutation String.le (elements s)) as Hperm.
    split; [|split; [|split]].
    + intros x. rewrite Hperm, elem_of_elements. unfold edge_in. rewrite Hs. split; [eauto | intros (s0 & [= <-] & Hx); exact Hx].
    + apply StronglySorted_merge_sort; apply _.
    + rewrite Hperm. apply NoDup_elements.
    + intros Hnil. rewrite Hnil in Hperm. apply Permutation_nil_l in Hperm.
      apply (build_adjacency_nonempty (default (nt_results nt) results) k s Hs).
      symmetry in Hperm. apply elements_empty_inv in Hperm. by apply leibniz_equiv.
Qed.

(** ** generate_random_public_ips *)

Lemma generate_loop_spec (count : Z) (acc : list string) (draws : list draw) :
  (length acc ≤ Z.to_nat count)%nat →
  generate_loop count acc draws =
    if bool_decide (Z.to_nat count - length acc ≤ length (accepted_draws draws))%nat
    then Some (acc ++ take (Z.to_nat count - length acc) (map format_draw (accepted_draws draws)))
    else None.
Proof.
  revert acc. induction draws as [|[[[first second] third] fourth] draws IH]; intros acc Hacc.
  - simpl. case_bool_decide as Hlt; case_bool_decide as Hle; simpl in Hle.
    + lia.
    + done.
    + replace (Z.to_nat count - length acc)%nat with 0%nat by lia. by rewrite app_nil_r.
    + lia.
  - simpl. case_bool_decide as Hlt.
    + destruct (reserved_ip first second) eqn:Hres.
      * unfold accepted_draws. rewrite filter_cons_False by (rewrite Hres; discriminate).
        fold (accepted_draws draws). by apply IH.
      * unfold accepted_draws. rewrite filter_cons_True by exact Hres.
        fold (accepted_draws draws). rewrite IH by (rewrite length_app; simpl; lia).
        rewrite length_app. simpl length.
        replace (Z.to_nat count - length acc)%nat with (S (Z.to_nat count - (length acc + 1)))
          by lia.
        rewrite (bool_decide_ext (S _ ≤ S _)%nat (Z.to_nat count - (length acc + 1) ≤ length (accepted_draws draws))%nat)
          by lia.
        case_bool_decide; [|done]. simpl. by rewrite <- app_assoc.
    + replace (Z.to_nat count - length acc)%nat with 0%nat by lia.
      rewrite bool_decide_true by lia. by rewrite app_nil_r.
Qed.

(** X14: [generate_random_public_ips count] keeps the draws outside the
    reserved ranges, in order, and formats the first [count] of them;
    when the draws run out first, the loop does not end. *)
Theorem generate_random_public_ips_spec (count : Z) (draws : list draw) :
  generate_random_public_ips count draws =
    if bool_decide (Z.to_nat count ≤ length (accepted_draws draws))%nat
    then Some (take (Z.to_nat count) (map format_draw (accepted_draws draws)))
    else None.
Proof.
  unfold generate_random_public_ips. rewrite generate_loop_spec by (simpl; lia).
  simpl. by rewrite Nat.sub_0_r.
Qed.

Lemma pretty_N_char_not_dot (k : N) : pretty_N_char k ≠ Ascii.ascii_of_nat 46.
Proof. unfold pretty_N_char. repeat case_match; vm_compute; discriminate. Qed.

Lemma dot_free_pretty_go (x : N) (s : string) : dot_free s → dot_free (pretty_N_go x s).
Proof.
  revert s. induction x as [x IH] using (well_founded_induction N.lt_wf_0). intros s Hs.
  destruct (decide (x = 0%N)) as [->|Hx]; [by rewrite pretty_N_go_0|].
  rewrite pretty_N_go_step by lia. apply IH.
  - apply N.div_lt; lia.
  - split; [apply pretty_N_char_not_dot|done].
Qed.

Lemma dot_free_pretty (n : N) : dot_free (pretty n).
Proof.
  unfold pretty, pretty_N. case_decide.
  - vm_compute. split; [discriminate|done].
  - by apply dot_free_pretty_go.
Qed.

Lemma dot_split (s1 s2 t1 t2 : string) :
  dot_free s1 → dot_free s2 →
  s1 +:+ "." +:+ t1 = s2 +:+ "." +:+ t2 → s1 = s2 ∧ t1 = t2.
Proof.
  change "."%string with (String (Ascii.ascii_of_nat 46) EmptyString).
  revert s2. induction s1 as [|c1 s1 IH]; intros [|c2 s2] H1 H2 Heq; simpl in *.
  - by injection Heq.
  - injection Heq as Hc _. destruct H2 as [Hc2 _]. congruence.
  - injection Heq as Hc _. destruct H1 as [Hc1 _]. congruence.
  - injection Heq as -> Heq. destruct H1 as [_ H1], H2 as [_ H2].
    destruct (IH s2 H1 H2 Heq) as [-> ->]. done.
Qed.

Lemma format_ip_inj (a b c d a' b' c' d' : Z) :
  0 ≤ a → 0 ≤ b → 0 ≤ c → 0 ≤ d → 0 ≤ a' → 0 ≤ b' → 0 ≤ c' → 0 ≤ d' →
  format_ip a b c d = format_ip a' b' c' d' → a = a' ∧ b = b' ∧ c = c' ∧ d = d'.
Proof.
  intros Ha Hb Hc Hd Ha' Hb' Hc' Hd'. unfold format_ip, py_str_int.
  rewrite !bool_decide_false by lia. intros Heq.
  apply dot_split in Heq as [Ea Heq]; try apply dot_free_pretty.
  apply dot_split in Heq as [Eb Heq]; try apply dot_free_pretty.
  apply dot_split in Heq as [Ec Ed]; try apply dot_free_pretty.
  apply (inj pretty) in Ea, Eb, Ec, Ed. lia.
Qed.

(** X15: with draws in the [randint] ranges, [generate_random_public_ips]
    returns [count] dotted quads. Each is [a.b.c.d] with [1 <= a <= 223],
    [1 <= d <= 254], and not in 10/8, 127/8, 172.16/12, 192.168/16 or
    169.254/16; the string determines its octets. *)
Theorem generate_random_public_ips_public (count : Z) (draws : list draw) (ips : list string) :
  Forall randint_ranges draws →
  generate_random_public_ips count draws = Some ips →
  length ips = Z.to_nat count ∧
  ∀ ip, ip ∈ ips → ∃ a b c d, ip = format_ip a b c d ∧
     (1 ≤ a ≤ 223 ∧ 0 ≤ b ≤ 255 ∧ 0 ≤ c ≤ 255 ∧ 1 ≤ d ≤ 254) ∧
     a ≠ 10 ∧ a ≠ 127 ∧ ¬ (a = 172 ∧ 16 ≤ b ≤ 31) ∧ ¬ (a = 192 ∧ b = 168) ∧
     ¬ (a = 169 ∧ b = 254) ∧
     ∀ a' b' c' d', 0 ≤ a' → 0 ≤ b' → 0 ≤ c' → 0 ≤ d' →
       ip = format_ip a' b' c' d' → a' = a ∧ b' = b ∧ c' = c ∧ d' = d.
Proof.
  intros Hr Hgen. unfold generate_random_public_ips in Hgen.
  rewrite generate_loop_spec in Hgen by (simpl; lia).
  simpl in Hgen. rewrite Nat.sub_0_r in Hgen.
  case_bool_decide as Hle; [|discriminate]. injection Hgen as <-. split.
  - rewrite length_take, length_map. lia.
  - intros ip Hip. apply elem_of_take in Hip as (i & Hi & _).
    apply list_elem_of_lookup_2, list_elem_of_In, in_map_iff in Hi as (dr & <- & Hdr).
    apply list_elem_of_In in Hdr. unfold accepted_draws in Hdr.
    apply list_elem_of_filter in Hdr as [Hres Hdr].
    rewrite Forall_forall in Hr. specialize (Hr dr Hdr).
    destruct dr as [[[a b] c] d]. simpl in Hr, Hres |- *.
    unfold reserved_ip in Hres. rewrite !orb_false_iff, !andb_false_iff in Hres.
    destruct Hres as [[[[H10 H172] H192] H127] H169].
    apply bool_decide_eq_false in H10, H127.
    exists a, b, c, d. split; [done|]. split; [lia|].
    split; [done|]. split; [done|].
    split; [destruct H172 as [H|H]; apply bool_decide_eq_false in H; tauto|].
    split; [destruct H192 as [H|H]; apply bool_decide_eq_false in H; tauto|].
    split; [destruct H169 as [H|H]; apply bool_decide_eq_false in H; tauto|].
    intros a' b' c' d' ? ? ? ? Heq.
    apply format_ip_inj in Heq; lia.
Qed.

(** ** Exceptions, run, run_parallel and main *)

Lemma receive_loop_no_raise (timeout now : Qc) (st : reply) (pkts : list arrival) (e : exn) :
  receive_loop timeout now st pkts ≠ PyRaise e.
Proof.
  revert now st. induction pkts as [|[t src data|] pkts IH]; intros now st; simpl.
  - case_bool_decide; discriminate.
  - case_bool_decide; [discriminate|]. case_bool_decide; [discriminate|].
    destruct (parse_icmp_type_ok (take 1024 data)) as [ty Hty]. rewrite Hty. simpl.
    destruct (accepted_type ty); [discriminate|apply IH].
  - case_bool_decide; discriminate.
Qed.





Lemma traceroute_run_shape (timeout : Qc) (port : Z) (env : trace_env) (hops : list hop) :
  traceroute_run timeout port env = Some (PyOk hops) →
  ∃ dest_ip front ttl a r, env_resolve env = Resolved dest_ip ∧
    hops = front ++ [(ttl, Some a, r)] ∧
    Forall (λ h, hop_ip h ≠ Some dest_ip) front ∧
    Forall hop_recorded hops.
Proof.
  unfold traceroute_run, resolve. destruct (env_resolve env) as [ip| |e]; [|discriminate..].
  destruct (create_sockets timeout env) as [[]|]; [|discriminate].
  intros H. destruct (probe_loop_shape _ _ _ _ _ _ _ H) as (mid & ttl & a & r & -> & Hmid & Hrec).
  exists ip, mid, ttl, a, r. auto.
Qed.

Lemma recorded_hops_recorded (timeout : Qc) (port : Z) (env : trace_env) :
  Forall hop_recorded (recorded_hops timeout port env).
Proof.
  unfold recorded_hops. destruct (traceroute_run timeout port env) as [[hops|e]|] eqn:H; try done.
  by destruct (traceroute_run_shape _ _ _ _ H) as (? & ? & ? & ? & ? & _ & _ & _ & ?).
Qed.

Lemma dict_set_elem {V} (k : string) (v : V) (d : list (string * V)) (x : string * V) :
  x ∈ dict_set k v d → x = (k, v) ∨ x ∈ d.
Proof.
  induction d as [|[k' v'] d IH]; simpl.
  - rewrite list_elem_of_singleton. auto.
  - case_bool_decide; rewrite !elem_of_cons; [tauto|].
    intros [->|Hx]; [tauto|]. destruct (IH Hx); tauto.
Qed.

Lemma results_recorded_set (r : results_dict) (d : string) (hops : list hop) :
  results_recorded r → Forall hop_recorded hops → results_recorded (dict_set d hops r).
Proof.
  intros Hr Hh dest hs h Hin Hhin.
  destruct (dict_set_elem _ _ _ _ Hin) as [[= -> ->]|Hin'].
  - by eapply Forall_forall.
  - eauto.
Qed.

Lemma run_loop_outcome (timeout : Qc) (port : Z) (r : results_dict) (b : batch)
    (r' : results_dict) (eo : option exn) :
  run_loop timeout port r b = Some (r', eo) →
  (results_recorded r → results_recorded r') ∧
  ∀ e, eo = Some e →
    ∃ b1 d env b2, b = b1 ++ (d, env) :: b2 ∧
      traceroute_run timeout port env = Some (PyRaise e) ∧ is_traceroute_error e = false ∧
      (∀ d' env', (d', env') ∈ b1 → trace_terminates timeout port env') ∧
      r' = store_batch timeout port r b1.
Proof.
  revert r. induction b as [|[d env] b IH]; intros r Hrun; simpl in Hrun.
  - injection Hrun as <- <-. split; [done|]. intros e [=].
  - assert (Hext : ∀ hops, recorded_hops timeout port env = hops →
              trace_terminates timeout port env →
              run_loop timeout port (dict_set d hops r) b = Some (r', eo) →
              (results_recorded r → results_recorded r') ∧
              ∀ e, eo = Some e →
                ∃ b1 d' env' b2, (d, env) :: b = b1 ++ (d', env') :: b2 ∧
                  traceroute_run timeout port env' = Some (PyRaise e) ∧
                  is_traceroute_error e = false ∧
                  (∀ d'' env'', (d'', env'') ∈ b1 → trace_terminates timeout port env'') ∧
                  r' = store_batch timeout port r b1).
    { intros hops Hh Hterm Hrun'. destruct (IH _ Hrun') as [Hrec Hexc]. split.
      - intros Hr. apply Hrec, results_recorded_set; [done|].
        rewrite <- Hh. apply recorded_hops_recorded.
      - intros e He. destruct (Hexc e He) as (b1 & d' & env' & b2 & -> & Ht & Hte & Hb1 & ->).
        exists ((d, env) :: b1), d', env', b2. split; [done|]. split; [done|]. split; [done|].
        split; [|by rewrite <- Hh].
        intros d'' env'' [[= -> ->]|Hin]%elem_of_cons; [done|]. eauto. }
    destruct (traceroute_run timeout port env) as [[hops|e]|] eqn:Ht; [| |discriminate].
    + apply (Hext hops); [unfold recorded_hops; by rewrite Ht | | done].
      exists (PyOk hops). split; [done|]. intros e [=].
    + destruct (is_traceroute_error e) eqn:Hte.
      * apply (Hext []); [unfold recorded_hops; by rewrite Ht | | done].
        exists (PyRaise e). split; [done|]. by intros e' [= <-].
      * injection Hrun as <- <-. split; [done|]. intros e' [= <-].
        exists [], d, env, b. split; [done|]. split; [done|]. split; [done|].
        split; [|done]. intros ? ? Hin. by apply elem_of_nil in Hin.
Qed.

Lemma worker_out (timeout : Qc) (port : Z) (de : string * trace_env)
    (o : pyres (string * list hop)) :
  worker timeout port de = Some o →
  o = PyOk (de.1, recorded_hops timeout port de.2) ∨
  ∃ e, o = PyRaise e ∧ traceroute_run timeout port de.2 = Some (PyRaise e) ∧
       is_traceroute_error e = false.
Proof.
  destruct de as [d env]. unfold worker, recorded_hops. simpl.
  destruct (traceroute_run timeout port env) as [[hops|e]|] eqn:Ht; [left; congruence| |discriminate].
  destruct (is_traceroute_error e) eqn:Hte; intros [= <-]; [by left|]. right. eauto.
Qed.

Lemma mapM_worker_terminating (timeout : Qc) (port : Z) (b : batch) :
  (∀ d env, (d, env) ∈ b → trace_terminates timeout port env) →
  mapM (worker timeout port) b
  = Some (map (λ de, PyOk (de.1, recorded_hops timeout port de.2)) b).
Proof.
  induction b as [|[d env] b IH]; intros Hb; [done|].
  assert (Hw : worker timeout port (d, env) = Some (PyOk (d, recorded_hops timeout port env))).
  { destruct (Hb d env) as (res & Hres & Herr); [by left|].
    unfold worker, recorded_hops. rewrite Hres. destruct res as [hops|e]; [done|].
    by rewrite (Herr e eq_refl). }
  simpl in Hw |- *. rewrite Hw. simpl. rewrite IH; [done|]. intros d' env' Hin. apply (Hb d'). by right.
Qed.

Lemma collect_ok (r : results_dict) (ps : list (string * list hop)) :
  collect r (map PyOk ps) = (foldl (λ r p, dict_set p.1 p.2 r) r ps, None).
Proof.
  revert r. induction ps as [|[d hops] ps IH]; intros r; simpl; [done|]. apply IH.
Qed.

Lemma collect_outcome (r : results_dict) (done : list (pyres (string * list hop)))
    (r' : results_dict) (eo : option exn) :
  collect r done = (r', eo) →
  (results_recorded r → (∀ d hops, PyOk (d, hops) ∈ done → Forall hop_recorded hops) →
   results_recorded r') ∧
  (∀ e, eo = Some e → PyRaise e ∈ done).
Proof.
  revert r. induction done as [|[[d hops]|e] done IH]; intros r Hc; simpl in Hc.
  - injection Hc as <- <-. split; [done|]. intros e [=].
  - destruct (IH _ Hc) as [Hrec Hexc]. split.
    + intros Hr Hd. apply Hrec.
      * apply results_recorded_set; [done|]. apply (Hd d). by left.
      * intros d' h' Hin. apply (Hd d'). by right.
    + intros e He. right. by apply Hexc.
  - injection Hc as <- <-. split; [done|]. intros e' [= <-]. by left.
Qed.

Lemma omap_lookup_seq_shift {A} (x : A) (l : list A) (k n : nat) :
  omap (λ i, (x :: l) !! i) (seq (S k) n) = omap (λ i, l !! i) (seq k n).
Proof. revert k. induction n as [|n IH]; intros k; simpl; [done|]. by rewrite IH. Qed.

Lemma omap_lookup_seq {A} (l : list A) : omap (λ i, l !! i) (seq 0 (length l)) = l.
Proof.
  induction l as [|x l IH]; [done|]. simpl. by rewrite omap_lookup_seq_shift, IH.
Qed.

Lemma dict_foldl_keys (r : results_dict) (ps : list (string * list hop)) :
  NoDup (dict_keys r) →
  NoDup (dict_keys (foldl (λ r p, dict_set p.1 p.2 r) r ps)) ∧
  ∀ d, d ∈ dict_keys (foldl (λ r p, dict_set p.1 p.2 r) r ps) ↔ d ∈ dict_keys r ∨ d ∈ map fst ps.
Proof.
  revert r. induction ps as [|[d hops] ps IH]; intros r Hnd; simpl.
  - split; [done|]. set_solver.
  - assert (Hnd' : NoDup (dict_keys (dict_set d hops r))).
    { rewrite dict_keys_set. case_bool_decide as Hin; [done|].
      apply NoDup_app. split; [done|]. split; [|apply NoDup_singleton].
      intros x Hx Hx'. apply list_elem_of_singleton in Hx'. subst. done. }
    destruct (IH _ Hnd') as [IH1 IH2]. split; [done|].
    intros d'. rewrite IH2, dict_keys_set. case_bool_decide; set_solver.
Qed.

Lemma dict_foldl_get_other (r : results_dict) (ps : list (string * list hop)) (d : string) :
  d ∉ map fst ps →
  dict_get d (foldl (λ r p, dict_set p.1 p.2 r) r ps) = dict_get d r.
Proof.
  revert r. induction ps as [|[d' hops] ps IH]; intros r Hd; simpl; [done|].
  rewrite IH by set_solver. rewrite dict_get_set, bool_decide_false by set_solver. done.
Qed.

Lemma dict_foldl_get (r : results_dict) (ps : list (string * list hop)) (d : string) (v : list hop) :
  NoDup (map fst ps) → (d, v) ∈ ps →
  dict_get d (foldl (λ r p, dict_set p.1 p.2 r) r ps) = Some v.
Proof.
  revert r. induction ps as [|[d' h'] ps IH]; intros r Hnd Hin; [set_solver|].
  simpl in Hnd |- *. apply NoDup_cons in Hnd as [Hd' Hnd].
  apply elem_of_cons in Hin as [[= -> ->]|Hin].
  - rewrite dict_foldl_get_other by done. rewrite dict_get_set, bool_decide_true; done.
  - by apply IH.
Qed.

Lemma omap_lookup_elem {A} (l : list A) (c : list nat) (x : A) :
  x ∈ omap (λ i, l !! i) c → x ∈ l.
Proof.
  rewrite list_elem_of_omap. intros (i & _ & Hi). by eapply list_elem_of_lookup_2.
Qed.

Lemma nt_run_parallel_cases (nt : topologer) (b : batch) (workers : option Z)
    (completion : list nat) (nt' : topologer) (res : pyres results_dict) :
  nt_run_parallel nt b workers completion = Some (nt', res) →
  nt' = set_results nt (nt_results nt') ∧
  results_recorded (nt_results nt') ∧
  ((max_workers (length b) workers ≤ 0 ∧ res = PyRaise ValueError ∧ nt_results nt' = []) ∨
   (0 < max_workers (length b) workers ∧
    (res = PyOk (nt_results nt') ∨
     ∃ e d env, res = PyRaise e ∧ (d, env) ∈ b ∧
       traceroute_run (nt_timeout nt) (nt_port nt) env = Some (PyRaise e) ∧
       is_traceroute_error e = false))).
Proof.
  unfold nt_run_parallel. case_bool_decide as Hw.
  - intros [= <- <-]. split; [done|]. split; [|left; auto].
    intros ? ? ? Hin. simpl in Hin. set_solver.
  - destruct (mapM (worker (nt_timeout nt) (nt_port nt)) b) as [outs|] eqn:Houts;
      [|discriminate].
    apply mapM_Some_1 in Houts.
    set (done := omap (λ i, outs !! i) completion).
    assert (Hdone : ∀ x, x ∈ done → ∃ de, de ∈ b ∧
              (x = PyOk (de.1, recorded_hops (nt_timeout nt) (nt_port nt) de.2) ∨
               ∃ e, x = PyRaise e ∧
                    traceroute_run (nt_timeout nt) (nt_port nt) de.2 = Some (PyRaise e) ∧
                    is_traceroute_error e = false)).
    { intros x Hx. apply omap_lookup_elem, list_elem_of_lookup_1 in Hx as [i Hi].
      destruct (Forall2_lookup_r _ _ _ _ _ Houts Hi) as (de & Hde & Hw').
      exists de. split; [by eapply list_elem_of_lookup_2|]. by apply worker_out. }
    destruct (collect [] done) as [r eo] eqn:Hc.
    destruct (collect_outcome _ _ _ _ Hc) as [Hrec Hexc].
    assert (Hr : results_recorded r).
    { apply Hrec; [intros ? ? ? Hin; set_solver|].
      intros d hops Hin. destruct (Hdone _ Hin) as (de & _ & [[= _ ->]|(e & [=] & _)]).
      apply recorded_hops_recorded. }
    destruct eo as [e|]; intros [= <- <-]; (split; [done|]); (split; [done|]);
      right; (split; [lia|]).
    + right. destruct (Hdone _ (Hexc e eq_refl)) as ([d env] & Hde & [[=]|(e' & [= <-] & Ht & Hte)]).
      exists e, d, env. auto.
    + by left.
Qed.

Lemma nt_run_parallel_complete (nt : topologer) (b : batch) (workers : option Z)
    (completion : list nat) :
  0 < max_workers (length b) workers →
  completion ≡ₚ seq 0 (length b) →
  (∀ d env, (d, env) ∈ b → trace_terminates (nt_timeout nt) (nt_port nt) env) →
  ∃ r, nt_run_parallel nt b workers completion = Some (set_results nt r, PyOk r) ∧
    NoDup (dict_keys r) ∧ (∀ d, d ∈ dict_keys r ↔ d ∈ map fst b) ∧
    (NoDup (map fst b) →
     ∀ d env, (d, env) ∈ b → dict_get d r = Some (recorded_hops (nt_timeout nt) (nt_port nt) env)).
Proof.
  intros Hw Hc Hterm. unfold nt_run_parallel. rewrite bool_decide_false by lia.
  rewrite (mapM_worker_terminating _ _ _ Hterm).
  set (g := λ de : string * trace_env, (de.1, recorded_hops (nt_timeout nt) (nt_port nt) de.2)).
  set (outs := map (λ de, PyOk (de.1, recorded_hops (nt_timeout nt) (nt_port nt) de.2)) b).
  assert (Houts' : outs = map PyOk (map g b)) by (unfold outs; rewrite map_map; done).
  assert (Hperm : omap (λ i, outs !! i) completion ≡ₚ map PyOk (map g b)).
  { rewrite Hc. replace (length b) with (length outs) by (unfold outs; rewrite length_map; done).
    rewrite omap_lookup_seq. by rewrite Houts'. }
  destruct (Permutation_map_inv _ _ Hperm) as (ps & Hps & Hperm'). rewrite Hps, collect_ok.
  eexists. split; [done|].
  assert (Hfst : map fst ps ≡ₚ map fst b).
  { rewrite <- Hperm', map_map. done. }
  destruct (dict_foldl_keys [] ps) as [Hnd Hkeys]; [constructor|].
  split; [done|]. split.
  - intros d. rewrite Hkeys, <- Hfst. set_solver.
  - intros Hndb d env Hin. apply dict_foldl_get.
    + by rewrite Hfst.
    + rewrite <- Hperm'. apply list_elem_of_In, in_map_iff. exists (d, env).
      split; [done|]. by apply list_elem_of_In.
Qed.

Lemma hop_recorded_paired (h : hop) :
  hop_recorded h → hop_ip h ≠ None → hop_rtt h ≠ None.
Proof. intros [[-> _]|(a & rt & _ & ->)]; congruence. Qed.

Lemma visualize_plot (hd : results_dict) (ds : list string)
    (st : graph_stats) (p : plot_outcome) :
  results_recorded hd →
  visualize hd ds = VizPlot st p →
  (1 ≤ st_edges st)%nat ∧
  ∃ inter dest E L, p = Plot inter dest E L ∧
    ∀ lab, L = Some lab → ∀ a b x, lab !! (a, b) = Some x → (a, b) ∈ E ∧ (0 < x)%Qc.
Proof.
  intros Hrec. unfold visualize. case_bool_decide as Hadj; [discriminate|].
  intros [= <- <-].
  destruct (map_choose _ Hadj) as (a & s & Hs).
  destruct (set_choose_L s (build_adjacency_nonempty hd a s Hs)) as [y Hy].
  assert (Hay : (a, y) ∈ g_edges (graph_of (build_adjacency hd))).
  { apply graph_of_edges. exists s. done. }
  split.
  - unfold get_graph_stats. simpl.
    destruct (size (g_edges (graph_of (build_adjacency hd)))) eqn:Hz; [|lia].
    apply size_empty_iff in Hz. set_solver.
  - unfold plot_topology. case_bool_decide as Hz.
    { exfalso. apply size_empty_iff in Hz.
      assert (Ha : a ∈ g_nodes (graph_of (build_adjacency hd))).
      { apply graph_of_nodes. left. exists y, s. done. }
      set_solver. }
    do 4 eexists. split; [reflexivity|].
    intros lab Hlab a' b' x Hx. case_bool_decide; [discriminate|].
    injection Hlab as <-. unfold edge_labels_of in Hx.
    apply lookup_omap_Some in Hx as (l & Hsome & Hl).
    destruct l as [|q l]; [discriminate|]. injection Hsome as <-.
    destruct (latency_lat_ok hd _ _ Hl) as [Hne Hpos]. split.
    + apply graph_of_edges. eapply latency_keys_edges; [|exact Hl].
      intros dest hops h Hin Hh. apply hop_recorded_paired. exact (Hrec dest hops h Hin Hh).
    + by apply avg_latency_pos.
Qed.

Lemma max_workers_nonpos (n : nat) (workers : option Z) :
  max_workers n workers ≤ 0 → ∃ w, workers = Some w ∧ w < 0.
Proof.
  unfold max_workers. destruct workers as [w|]; repeat case_bool_decide; try lia.
  intros. exists w. split; [done|lia].
Qed.

Lemma main_done (args : cli_args) (draws : list draw) (net : string → trace_env)
    (completion : list nat) (ds : list string) (hd : results_dict) (v : option viz_outcome) :
  main args draws net completion = Some (MainDone ds hd v) →
  choose_destinations args draws = Some (inr ds) ∧
  results_recorded hd ∧
  v = (if arg_visualize args then Some (visualize hd ds) else None).
Proof.
  unfold main. destruct (choose_destinations args draws) as [[msg|ds']|]; try discriminate.
  set (nt := new_topologer (Q2Qc (inject_Z (arg_timeout args))) (arg_port args)).
  set (b := map (λ d, (d, net d)) ds').
  destruct (arg_parallel args).
  - destruct (nt_run_parallel nt b (arg_workers args) completion) as [[nt' [r|e]]|] eqn:Hc;
      [|destruct (is_traceroute_error e); discriminate|discriminate].
    intros [= <- <- <-]. split; [done|].
    destruct (nt_run_parallel_cases _ _ _ _ _ _ Hc)
      as (_ & Hrec & [(_ & [=] & _)|(_ & [[= ->]|(e & ? & ? & [=] & _)])]).
    split; [exact Hrec|done].
  - unfold nt_run.
    destruct (run_loop (nt_timeout nt) (nt_port nt) (nt_results nt) b) as [[r [e|]]|] eqn:Hrun;
      [destruct (is_traceroute_error e); discriminate| |discriminate].
    destruct (run_loop_outcome _ _ _ _ _ _ Hrun) as [Hrec _].
    intros [= <- <- <-]. split; [done|]. split; [|done].
    apply Hrec. intros ? ? ? Hin. simpl in Hin. set_solver.
Qed.



(** X2: every hop [Traceroute.run] returns is a timeout
    [(ttl, None, None)], or carries both an address and a round-trip
    time. *)
Theorem traceroute_run_hops_recorded (timeout : Qc) (port : Z) (env : trace_env)
    (hops : list hop) :
  traceroute_run timeout port env = Some (PyOk hops) → Forall hop_recorded hops.
Proof.
  intros H. by destruct (traceroute_run_shape _ _ _ _ H) as (? & ? & ? & ? & ? & _ & _ & _ & ?).
Qed.

(** X3: a hop list returned by [Traceroute.run] ends with a hop that
    has an address, and the resolved destination address appears in no
    earlier hop. *)
Theorem traceroute_run_last_hop (timeout : Qc) (port : Z) (env : trace_env) (hops : list hop) :
  traceroute_run timeout port env = Some (PyOk hops) →
  ∃ dest_ip front ttl a r, env_resolve env = Resolved dest_ip ∧
    hops = front ++ [(ttl, Some a, r)] ∧ Forall (λ h, hop_ip h ≠ Some dest_ip) front.
Proof.
  intros H. destruct (traceroute_run_shape _ _ _ _ H) as (ip & front & ttl & a & r & ? & ? & ? & _).
  eauto 10.
Qed.

(** X4: [NetworkTopologer.run] either returns the results it stored, or
    re-raises the first exception of a trace that is not a
    [TracerouteError]; it then stops the batch, and [self.results] keeps
    exactly the destinations traced before, each with its hop list or
    [[]]. Stored hops keep the recorded shape. *)
Theorem nt_run_outcome (nt nt' : topologer) (b : batch) (res : pyres results_dict) :
  nt_run nt b = Some (nt', res) →
  nt' = set_results nt (nt_results nt') ∧
  (res = PyOk (nt_results nt') ∨
   ∃ e b1 d env b2, res = PyRaise e ∧ b = b1 ++ (d, env) :: b2 ∧
     traceroute_run (nt_timeout nt) (nt_port nt) env = Some (PyRaise e) ∧
     is_traceroute_error e = false ∧
     (∀ d' env', (d', env') ∈ b1 → trace_terminates (nt_timeout nt) (nt_port nt) env') ∧
     nt_results nt' = store_batch (nt_timeout nt) (nt_port nt) (nt_results nt) b1) ∧
  (results_recorded (nt_results nt) → results_recorded (nt_results nt')).
Proof.
  unfold nt_run.
  destruct (run_loop (nt_timeout nt) (nt_port nt) (nt_results nt) b) as [[r eo]|] eqn:Hrun;
    [|discriminate].
  destruct (run_loop_outcome _ _ _ _ _ _ Hrun) as [Hrec Hexc].
  destruct eo as [e|]; intros [= <- <-]; (split; [done|]); (split; [|exact Hrec]).
  - right. destruct (Hexc e eq_refl) as (b1 & d & env & b2 & Hb & Ht & Hte & Hterm & Hst).
    exists e, b1, d, env, b2. repeat split; try done.
  - by left.
Qed.

(** X5: [run_parallel] raises [ValueError] from the pool, with the
    results cleared, exactly when [max_workers <= 0], that is for a
    negative [workers]. Otherwise it returns the results it stored, or
    re-raises an exception, not a [TracerouteError], that the trace of
    one of its destinations raised. Stored hops keep the recorded shape. *)
Theorem nt_run_parallel_outcome (nt nt' : topologer) (b : batch) (workers : option Z)
    (completion : list nat) (res : pyres results_dict) :
  nt_run_parallel nt b workers completion = Some (nt', res) →
  results_recorded (nt_results nt') ∧
  ((max_workers (length b) workers ≤ 0 ∧ (∃ w, workers = Some w ∧ w < 0) ∧
    res = PyRaise ValueError ∧ nt_results nt' = []) ∨
   (0 < max_workers (length b) workers ∧
    (res = PyOk (nt_results nt') ∨
     ∃ e d env, res = PyRaise e ∧ (d, env) ∈ b ∧
       traceroute_run (nt_timeout nt) (nt_port nt) env = Some (PyRaise e) ∧
       is_traceroute_error e = false))).
Proof.
  intros H. destruct (nt_run_parallel_cases _ _ _ _ _ _ H) as (_ & Hrec & [(Hw & ? & ?)|?]).
  - split; [done|]. left. split; [done|]. split; [by apply (max_workers_nonpos (length b))|]. auto.
  - split; [done|]. by right.
Qed.

(** X6: when the pool can start, every trace ends with a hop list or a
    [TracerouteError], and every future completes once, [run_parallel]
    returns one key per distinct destination, whatever the completion
    order. For distinct destinations, each entry is that destination's
    hop list, or [[]] when its trace raised. *)
Theorem nt_run_parallel_results (nt : topologer) (b : batch) (workers : option Z)
    (completion : list nat) :
  0 < max_workers (length b) workers →
  completion ≡ₚ seq 0 (length b) →
  (∀ d env, (d, env) ∈ b → trace_terminates (nt_timeout nt) (nt_port nt) env) →
  ∃ r, nt_run_parallel nt b workers completion = Some (set_results nt r, PyOk r) ∧
    NoDup (dict_keys r) ∧ (∀ d, d ∈ dict_keys r ↔ d ∈ map fst b) ∧
    (NoDup (map fst b) →
     ∀ d env, (d, env) ∈ b → dict_get d r = Some (recorded_hops (nt_timeout nt) (nt_port nt) env)).
Proof. apply nt_run_parallel_complete. Qed.

(** X17: when [main] ends normally, it traced a non-empty list: the
    generated IPs under a positive [--random], else the given
    destinations. It visualises exactly when [--visualize] is set. *)
Theorem main_destinations (args : cli_args) (draws : list draw) (net : string → trace_env)
    (completion : list nat) (ds : list string) (hd : results_dict) (v : option viz_outcome) :
  main args draws net completion = Some (MainDone ds hd v) →
  ds ≠ [] ∧
  (∀ n, arg_random args = Some n → 0 < n → generate_random_public_ips n draws = Some ds) ∧
  ((∀ n, arg_random args = Some n → n = 0) → ds = arg_destinations args) ∧
  (v = None ↔ arg_visualize args = false).
Proof.
  intros H. destruct (main_done _ _ _ _ _ _ _ H) as (Hch & _ & Hv).
  assert (Hgiven : (match arg_destinations args with
                    | [] => Some (inl msg_no_destinations)
                    | dests => Some (inr dests) end : option (string + list string))
                   = Some (inr ds) → ds ≠ [] ∧ ds = arg_destinations args).
  { destruct (arg_destinations args); intros [= <-]; done. }
  split; [|split; [|split]].
  - unfold choose_destinations in Hch. destruct (arg_random args) as [n|]; [|by apply Hgiven].
    case_bool_decide; [|by apply Hgiven]. case_bool_decide; [discriminate|].
    destruct (generate_random_public_ips n draws) as [ips|] eqn:Hg; [|discriminate].
    injection Hch as <-. unfold generate_random_public_ips in Hg.
    rewrite generate_loop_spec in Hg by (simpl; lia). simpl in Hg.
    case_bool_decide as Hle; [|discriminate]. injection Hg as <-.
    intros Hnil. apply (f_equal length) in Hnil. rewrite length_take, length_map in Hnil.
    simpl in Hnil. lia.
  - intros n Hr Hn. unfold choose_destinations in Hch. rewrite Hr in Hch.
    rewrite !bool_decide_true in Hch by lia.
    rewrite bool_decide_false in Hch by lia.
    destruct (generate_random_public_ips n draws); [|discriminate]. by injection Hch as ->.
  - intros Hr. unfold choose_destinations in Hch.
    destruct (arg_random args) as [n|]; [|by apply Hgiven].
    rewrite (Hr n eq_refl), bool_decide_false in Hch by lia. by apply Hgiven.
  - rewrite Hv. destruct (arg_visualize args); split; congruence.
Qed.



(** X19: when [main] plots, the graph has at least one edge. Every
    latency label is on a drawn edge and is positive. *)
Theorem main_visualize (args : cli_args) (draws : list draw) (net : string → trace_env)
    (completion : list nat) (ds : list string) (hd : results_dict)
    (st : graph_stats) (p : plot_outcome) :
  main args draws net completion = Some (MainDone ds hd (Some (VizPlot st p))) →
  (1 ≤ st_edges st)%nat ∧
  ∃ inter dest E L, p = Plot inter dest E L ∧
    ∀ lab, L = Some lab → ∀ a b x, lab !! (a, b) = Some x → (a, b) ∈ E ∧ (0 < x)%Qc.
Proof.
  intros H. destruct (main_done _ _ _ _ _ _ _ H) as (_ & Hrec & Hv).
  destruct (arg_visualize args); [|discriminate]. injection Hv as Hv.
  symmetry in Hv. exact (visualize_plot _ _ _ _ Hrec Hv).
Qed.


(** A concrete instance of [traceroute_run_hops_recorded]. *)
Lemma traceroute_run_hops_recorded_witness : Forall hop_recorded sample_hops.
Proof. apply (traceroute_run_hops_recorded (qc 2) 33434 sample_env). qc_compute. Defined.

(** A concrete instance of [traceroute_run_last_hop]. *)
Lemma traceroute_run_last_hop_witness :
  ∃ dest_ip front ttl a r, env_resolve sample_env = Resolved dest_ip ∧
    sample_hops = front ++ [(ttl, Some a, r)] ∧ Forall (λ h, hop_ip h ≠ Some dest_ip) front.
Proof. apply (traceroute_run_last_hop (qc 2) 33434 sample_env). qc_compute. Defined.

(** A concrete instance of [nt_run_outcome]: the malformed name aborts the
    batch after the first destination. *)
Lemma nt_run_outcome_witness :
  ∃ nt', nt_run (new_topologer (qc 2) 33434) aborted_batch = Some (nt', PyRaise UnicodeError) ∧
    nt_results nt' = store_batch (qc 2) 33434 [] [("example.com"%string, sample_env)].
Proof.
  assert (H : nt_run (new_topologer (qc 2) 33434) aborted_batch
              = Some (set_results (new_topologer (qc 2) 33434) [("example.com"%string, sample_hops)],
                      PyRaise UnicodeError)) by qc_compute.
  eexists. split; [exact H|].
  destruct (nt_run_outcome _ _ _ _ H) as (_ & [Hok|(e & b1 & d & env & b2 & He & Hb & Ht & Hte & _ & Hst)] & _);
    [discriminate|].
  injection He as <-. unfold aborted_batch in Hb.
  destruct b1 as [|x1 [|x2 [|x3 b1]]]; simpl in Hb; simplify_eq;
    first [exact Hst | vm_compute in Ht; congruence | destruct b1; discriminate].
Defined.

(** A concrete instance of [nt_run_parallel_outcome]: a worker's
    [UnicodeError] is re-raised. *)
Lemma nt_run_parallel_outcome_witness :
  ∃ nt', nt_run_parallel (new_topologer (qc 2) 33434) [("a..b"%string, malformed_name_env)]
           None [0%nat] = Some (nt', PyRaise UnicodeError) ∧
    ∃ d env, (d, env) ∈ [("a..b"%string, malformed_name_env)] ∧
      traceroute_run (qc 2) 33434 env = Some (PyRaise UnicodeError).
Proof.
  assert (H : nt_run_parallel (new_topologer (qc 2) 33434) [("a..b"%string, malformed_name_env)]
                None [0%nat] = Some (set_results (new_topologer (qc 2) 33434) [], PyRaise UnicodeError))
    by reflexivity.
  eexists. split; [exact H|].
  destruct (nt_run_parallel_outcome _ _ _ _ _ _ H)
    as [_ [(Hw & _)|(_ & [Hok|(e & d & env & [= <-] & Hde & Ht & _)])]].
  - vm_compute in Hw. by destruct Hw.
  - discriminate.
  - exists d, env. auto.
Defined.

(** A concrete instance of [nt_run_parallel_results]. *)
Lemma nt_run_parallel_results_witness :
  ∃ r, nt_run_parallel (new_topologer (qc 2) 33434) sample_batch None [1%nat; 0%nat]
         = Some (set_results (new_topologer (qc 2) 33434) r, PyOk r) ∧
       dict_get "no.such.host.invalid" r = Some [].
Proof.
  destruct (nt_run_parallel_results (new_topologer (qc 2) 33434) sample_batch None [1%nat; 0%nat])
    as (r & Hr & _ & _ & Hget).
  - vm_compute. reflexivity.
  - simpl. apply perm_swap.
  - intros d env Hin.
    repeat (apply elem_of_cons in Hin as [Hin|Hin]); [..|by apply elem_of_nil in Hin];
      injection Hin as -> ->.
    + exists (PyOk sample_hops). split; [qc_compute | discriminate].
    + eexists. split; [reflexivity|]. intros e He. injection He as <-. reflexivity.
  - exists r. split; [exact Hr|].
    apply (Hget ltac:(apply (bool_decide_unpack _); vm_compute; exact I)
             "no.such.host.invalid" unresolvable_env).
    set_solver.
Defined.

(** A concrete instance of [main_destinations]. *)
Lemma main_destinations_witness :
  ∃ hd v, main (sample_cli ["example.com"%string] None false None true) [] sample_net []
            = Some (MainDone ["example.com"%string] hd v) ∧ v ≠ None.
Proof.
  destruct (main (sample_cli ["example.com"%string] None false None true) [] sample_net [])
    as [o|] eqn:H; [|vm_compute in H; discriminate].
  destruct o as [msg | e | e | ds hd v]; try (vm_compute in H; discriminate).
  destruct (main_destinations _ _ _ _ _ _ _ H) as (_ & _ & Hds & Hv).
  exists hd, v. split; [by rewrite (Hds ltac:(intros n Hn; discriminate))|]. intros Hnone. by apply Hv in Hnone.
Defined.


(** A concrete instance of [main_visualize]. *)
Lemma main_visualize_witness :
  ∃ ds hd st p,
    main (sample_cli ["example.com"%string; "no.such.host.invalid"%string] None true None true)
      [] sample_net [1%nat; 0%nat] = Some (MainDone ds hd (Some (VizPlot st p))) ∧
    (1 ≤ st_edges st)%nat.
Proof.
  destruct (main (sample_cli ["example.com"%string; "no.such.host.invalid"%string] None true None true)
              [] sample_net [1%nat; 0%nat]) as [o|] eqn:H; [|vm_compute in H; discriminate].
  destruct o as [msg | e | e | ds hd [[ | st p] | ]]; try (vm_compute in H; discriminate).
  exists ds, hd, st, p. split; [done|]. exact (proj1 (main_visualize _ _ _ _ _ _ _ _ H)).
Defined.

(** A concrete instance of [topology_dict_spec]. *)
Lemma topology_dict_spec_witness :
  ∃ l, topology_dict (new_topologer (qc 2) 33434) (Some [("93.184.216.34"%string, path_ABD)])
         !! "10.0.0.1"%string = Some l ∧ StronglySorted String.le l ∧ NoDup l.
Proof.
  destruct (topology_dict (new_topologer (qc 2) 33434) (Some [("93.184.216.34"%string, path_ABD)])
              !! "10.0.0.1"%string) as [l|] eqn:H; [|vm_compute in H; discriminate].
  exists l. destruct (proj2 (topology_dict_spec _ _ _) l H) as (_ & Hs & Hnd & _). auto.
Defined.

(** A concrete instance of [get_graph_stats_adjacency]. *)
Lemma get_graph_stats_adjacency_witness :
  st_edges (get_graph_stats (build_adjacency [])) = 0%nat.
Proof. apply (proj2 (proj2 (get_graph_stats_adjacency []))). reflexivity. Defined.

(** A concrete instance of [plot_topology_layout]. *)
Lemma plot_topology_layout_witness :
  ∃ inter dest E L,
    plot_topology (build_adjacency [("93.184.216.34"%string, path_ABD)])
      (Some {["93.184.216.34"%string]}) None = Plot inter dest E L ∧ inter ## dest.
Proof.
  destruct (plot_topology (build_adjacency [("93.184.216.34"%string, path_ABD)])
              (Some {["93.184.216.34"%string]}) None) as [|inter dest E L] eqn:H;
    [vm_compute in H; discriminate|].
  exists inter, dest, E, L. split; [done|].
  exact (proj1 (proj2 (proj2 (proj2 (plot_topology_layout _ _ _) _ _ _ _ H)))).
Defined.

(** A concrete instance of [build_adjacency_with_latency_positive]. *)
Lemma build_adjacency_with_latency_positive_witness :
  ∃ l, build_adjacency_with_latency [("93.184.216.34"%string, path_ABD)]
         !! ("10.0.0.1"%string, "10.0.0.2"%string) = Some l ∧ l ≠ [].
Proof.
  destruct (build_adjacency_with_latency [("93.184.216.34"%string, path_ABD)]
              !! ("10.0.0.1"%string, "10.0.0.2"%string)) as [l|] eqn:H;
    [|vm_compute in H; discriminate].
  exists l. split; [done|]. exact (proj1 (build_adjacency_with_latency_positive _ _ _ H)).
Defined.

(** A concrete instance of [latency_edges_in_adjacency]. *)
Lemma latency_edges_in_adjacency_witness :
  edge_in (build_adjacency [("93.184.216.34"%string, path_ABD)]) "10.0.0.1" "10.0.0.2".
Proof.
  destruct (build_adjacency_with_latency [("93.184.216.34"%string, path_ABD)]
              !! ("10.0.0.1"%string, "10.0.0.2"%string)) as [l|] eqn:H;
    [|vm_compute in H; discriminate].
  refine (latency_edges_in_adjacency _ _ _ _ _ H).
  intros dest hops h Hin Hh. apply list_elem_of_singleton in Hin. injection Hin as -> ->.
  repeat (apply elem_of_cons in Hh as [Hh|Hh]); [..|by apply elem_of_nil in Hh];
    subst h; simpl; discriminate.
Defined.

(** A concrete instance of [generate_random_public_ips_public]. *)
Lemma generate_random_public_ips_public_witness :
  ∃ a b c d, "93.184.216.34"%string = format_ip a b c d ∧ a ≠ 10.
Proof.
  destruct (generate_random_public_ips_public 1 [(10, 0, 0, 1); (93, 184, 216, 34)]
              ["93.184.216.34"%string]) as [_ Hip].
  - repeat constructor; simpl; lia.
  - vm_compute. reflexivity.
  - destruct (Hip "93.184.216.34"%string ltac:(by left)) as (a & b & c & d & Heq & _ & H10 & _).
    exists a, b, c, d. auto.
Defined.
